(** * OpenCensus for Go: tag value codec, Stackdriver trace exporter, gRPC
      stats handlers

    A shallow embedding of the components of the repository that carry its
    algorithmic content:

    - package [tagencoding]: the [Values] buffer with [growIfRequired],
      [WriteValue], [ReadValue] and [Bytes];
    - package [stackdriver]: [newExporter], [Exporter.Export],
      [Exporter.uploadToStackdriver] and the [overflowLogger] with its
      [delay] and [log] methods;
    - package [grpctrace]: the span names of the two [TagRPC] methods and
      [handleRPC].

    Conventions of the embedding.

    - A Go [int] is a [Z]; the targets considered have 64-bit [int]s.
      Lengths of slices that exist in memory, and the number of drops
      counted between two runs of a timer, stay far below [2^62], so sums
      of such numbers are written without wrap-around.  An [int] that
      comes from the configuration (the bundle count threshold) is
      arbitrary, and the arithmetic on it is written with its 64-bit
      wrap-around ([wrap64]).
    - A [[]byte] is a [list byte]; every buffer the code allocates comes
      from [make([]byte, n)], whose length and capacity coincide, so a
      slice is identified with its visible elements.
    - A run-time panic (index or slice bound out of range, negative size
      given to [make]) is the result [None], and so is a read through an
      unsafe pointer that leaves the slice, whose value Go does not
      define.
    - The codec turns the length into two bytes by reinterpreting the
      memory of an [int].  The embedding fixes the byte order of the
      little-endian targets of Go (amd64, arm64, 386, ...): byte 0 of the
      integer is its least significant byte. *)

From Stdlib Require Import ZArith Lia.
From Stdlib Require Import Strings.Byte Strings.Ascii Strings.String.
From stdpp Require Import base option list numbers strings pretty gmap.

Local Open Scope Z_scope.

(** ** Go built-ins on byte slices *)

Module Go.

(** [len(s)] *)
Definition len {A : Type} (s : list A) : Z := Z.of_nat (length s).

(** [make([]byte, n)]: [n] zero bytes; panics on a negative size. *)
Definition make (n : Z) : option (list byte) :=
  if n <? 0 then None else Some (replicate (Z.to_nat n) x00).

(** [copy(dst, src)]: overwrites the first [min(len(dst), len(src))]
    elements of [dst]; the result is the new content of [dst]. *)
Definition copy (dst src : list byte) : list byte :=
  take (length dst) src ++ drop (length src) dst.

(** [s[i]] as an expression. *)
Definition index (s : list byte) (i : Z) : option byte :=
  if (0 <=? i) && (i <? len s) then s !! Z.to_nat i else None.

(** [s[i] = b] *)
Definition store (s : list byte) (i : Z) (b : byte) : option (list byte) :=
  if (0 <=? i) && (i <? len s) then Some (<[Z.to_nat i := b]> s) else None.

(** [s[lo:hi]] *)
Definition slice (s : list byte) (lo hi : Z) : option (list byte) :=
  if (0 <=? lo) && (lo <=? hi) && (hi <=? len s)
  then Some (take (Z.to_nat (hi - lo)) (drop (Z.to_nat lo) s))
  else None.

(** [copy(s[lo:], src)], seen from [s]: the elements below [lo] stay, the
    tail is overwritten by [copy]. *)
Definition copy_from (s : list byte) (lo : Z) (src : list byte)
  : option (list byte) :=
  if (0 <=? lo) && (lo <=? len s)
  then Some (take (Z.to_nat lo) s ++ copy (drop (Z.to_nat lo) s) src)
  else None.

(** The byte whose value is [z mod 256]. *)
Definition byte_of_Z (z : Z) : byte :=
  default x00 (Byte.of_N (Z.to_N (Z.land z 255))).

Definition Z_of_byte (b : byte) : Z := Z.of_N (Byte.to_N b).

(** The memory of an [int] [n] read through an unsafe pointer as a
    2-byte array: the two bytes at the lowest addresses of the integer. *)
Definition int_low_bytes (n : Z) : byte * byte :=
  (byte_of_Z n, byte_of_Z (Z.shiftr n 8)).

(** The memory at [&s[i]] read through an unsafe pointer as a [uint16],
    given the two bytes found at [s[i]] and [s[i+1]]. *)
Definition uint16_of_bytes (b0 b1 : byte) : Z :=
  Z.lor (Z_of_byte b0) (Z.shiftl (Z_of_byte b1) 8).

(** [time.Second]: a [time.Duration] counts nanoseconds. *)
Definition Second : Z := 1000000000.

End Go.

(** ** Package tagencoding *)

Module tagencoding.
Import Go.

Definition sizeOfUint16 : Z := 2.

Record Values : Type := mkValues {
  Buffer : list byte;
  WriteIndex : Z;
  ReadIndex : Z
}.

(** The zero value [Values{}]: a nil buffer and both cursors at 0. *)
Definition empty : Values :=
  {| Buffer := []; WriteIndex := 0; ReadIndex := 0 |}.

Definition growIfRequired (vb : Values) (expected : Z) : option Values :=
  if len (Buffer vb) - WriteIndex vb <? expected then
    tmp ← make (2 * (len (Buffer vb) + 1) + expected);
    Some {| Buffer := copy tmp (Buffer vb);
            WriteIndex := WriteIndex vb;
            ReadIndex := ReadIndex vb |}
  else Some vb.

Definition WriteValue (vb : Values) (v : list byte) : option Values :=
  let length := len v in
  vb ← growIfRequired vb (sizeOfUint16 + length);
  (* writing length of v *)
  let bytes := int_low_bytes length in
  buf ← store (Buffer vb) (WriteIndex vb) (fst bytes);
  let vb := {| Buffer := buf; WriteIndex := WriteIndex vb + 1;
               ReadIndex := ReadIndex vb |} in
  buf ← store (Buffer vb) (WriteIndex vb) (snd bytes);
  let vb := {| Buffer := buf; WriteIndex := WriteIndex vb + 1;
               ReadIndex := ReadIndex vb |} in
  if length =? 0 then
    (* No value was encoded for this key *)
    Some vb
  else
    (* writing v *)
    buf ← copy_from (Buffer vb) (WriteIndex vb) v;
    Some {| Buffer := buf; WriteIndex := WriteIndex vb + length;
            ReadIndex := ReadIndex vb |}.

(** What [ReadValue] returns: the nil slice or a freshly made slice. *)
Inductive bytes_result : Type :=
  | go_nil
  | go_slice (data : list byte).

Definition result_bytes (r : bytes_result) : list byte :=
  match r with go_nil => [] | go_slice d => d end.

(** [ReadValue].  The address [&vb.Buffer[vb.ReadIndex]] is bounds-checked;
    the 16-bit load through it then reads the following byte too, without
    a check: that byte has a defined value only inside the slice, and the
    model gives no result when the load leaves it. *)
Definition ReadValue (vb : Values) : option (bytes_result * Values) :=
  (* read length of v *)
  b0 ← index (Buffer vb) (ReadIndex vb);
  b1 ← index (Buffer vb) (ReadIndex vb + 1);
  let length := uint16_of_bytes b0 b1 in
  let vb := {| Buffer := Buffer vb; WriteIndex := WriteIndex vb;
               ReadIndex := ReadIndex vb + sizeOfUint16 |} in
  if length =? 0 then
    (* No value was encoded for this key *)
    Some (go_nil, vb)
  else
    (* read value of v *)
    v ← make length;
    let endIdx := ReadIndex vb + length in
    src ← slice (Buffer vb) (ReadIndex vb) endIdx;
    let v := copy v src in
    Some (go_slice v,
          {| Buffer := Buffer vb; WriteIndex := WriteIndex vb;
             ReadIndex := endIdx |}).

Definition Bytes (vb : Values) : option (list byte) :=
  slice (Buffer vb) 0 (WriteIndex vb).

(** A sequence of [WriteValue] calls, in order. *)
Fixpoint WriteValues (vb : Values) (vs : list (list byte)) : option Values :=
  match vs with
  | [] => Some vb
  | v :: vs' => vb' ← WriteValue vb v; WriteValues vb' vs'
  end.

(** [n] calls of [ReadValue], collecting what they return. *)
Fixpoint ReadValues (n : nat) (vb : Values)
  : option (list bytes_result * Values) :=
  match n with
  | O => Some ([], vb)
  | S n' =>
      '(r, vb') ← ReadValue vb;
      '(rs, vb'') ← ReadValues n' vb';
      Some (r :: rs, vb'')
  end.

(** The encoding of one value as the specification words it: a 2-byte
    length prefix, low byte first, followed by the payload. *)
Definition encode (v : list byte) : list byte :=
  byte_of_Z (len v) :: byte_of_Z (Z.shiftr (len v) 8) :: v.

(** What a reader gets back for a written value [v]. *)
Definition read_back (v : list byte) : bytes_result :=
  if len v =? 0 then go_nil else go_slice v.

(** The encodings of a sequence of values, one after the other. *)
Definition encode_all (vs : list (list byte)) : list byte :=
  concat (encode <$> vs).

(** The data-model invariant of a buffer under construction. *)
Definition wf (vb : Values) : Prop :=
  0 <= WriteIndex vb <= len (Buffer vb).

End tagencoding.

(** ** Package trace *)

Module trace.

(** Modelled from the spec: the span record [trace.SpanData], declared in
    package trace, which is not among the sources.  The exporter only
    takes the number of entries of these four collections, so their
    element types are kept plain. *)
Record SpanData : Type := mkSpanData {
  Name : string;
  Attributes : gmap string string;
  Annotations : list string;
  MessageEvents : list Z;
  StackTrace : list Z
}.

End trace.

(** ** Package bundler (google.golang.org/api/support/bundler)

    An external library: its configuration fields are the ones
    [newExporter] assigns; [items] stands for the records it currently
    holds, each with the size it was added with. *)

Module bundler.
Import Go trace.

Record Bundler : Type := mkBundler {
  DelayThreshold : Z;
  BundleCountThreshold : Z;
  BundleByteThreshold : Z;
  BundleByteLimit : Z;
  BufferedByteLimit : Z;
  items : list (SpanData * Z)
}.

(** [bundler.NewBundler]: the library's defaults, all of which
    [newExporter] overwrites. *)
Definition NewBundler : Bundler :=
  {| DelayThreshold := Second;
     BundleCountThreshold := 10;
     BundleByteThreshold := 1000000;
     BundleByteLimit := 0;
     BufferedByteLimit := 1000000000;
     items := [] |}.

(** The errors [bundler.Add] can hand back: its two sentinel values, and
    any other error, kept by its message. *)
Inductive bundler_error : Type :=
  | ErrOversizedItem
  | ErrOverflow
  | ErrOther (msg : string).

(** The size of everything the bundler holds. *)
Definition bufferedSize (b : Bundler) : Z :=
  foldr (λ it acc, snd it + acc) 0 (items b).

(** Modelled from the spec: a reference behaviour of [bundler.Add], whose
    code belongs to the external library and is not among the sources.  A
    record whose size alone exceeds the hard per-batch limit is refused as
    oversized; one whose acceptance would exceed the buffered-size ceiling
    is refused as overflow; any other record is stored. *)
Definition specAdd (b : Bundler) (s : SpanData) (n : Z)
  : option bundler_error * Bundler :=
  if (0 <? BundleByteLimit b) && (BundleByteLimit b <? n) then
    (Some ErrOversizedItem, b)
  else if BufferedByteLimit b <? bufferedSize b + n then
    (Some ErrOverflow, b)
  else
    (None,
     {| DelayThreshold := DelayThreshold b;
        BundleCountThreshold := BundleCountThreshold b;
        BundleByteThreshold := BundleByteThreshold b;
        BundleByteLimit := BundleByteLimit b;
        BufferedByteLimit := BufferedByteLimit b;
        items := items b ++ [(s, n)] |}).

(** A bundler that refuses with an error of its own, [msg], every record
    that [specAdd] would store: a stand-in for the errors other than the
    two sentinels. *)
Definition failingAdd (msg : string) (b : Bundler) (s : SpanData) (n : Z)
  : option bundler_error * Bundler :=
  match specAdd b s n with
  | (None, _) => (Some (ErrOther msg), b)
  | refused => refused
  end.

End bundler.

(** ** Package stackdriver *)

Module stackdriver.
Import Go trace.

(** Arithmetic on a 64-bit [int]: the result is taken modulo [2^64] into
    the signed range. *)
Definition wrap64 (z : Z) : Z := (z + 2 ^ 63) `mod` 2 ^ 64 - 2 ^ 63.

Definition is_int (z : Z) : Prop := - 2 ^ 63 <= z < 2 ^ 63.

(** What the code does to the process around it. *)
Inductive effect : Type :=
  | Println (line : string)
      (** [log.Println] or [log.Printf]: the text handed to the standard
          logger *)
  | AfterFunc (d : Z)
      (** [time.AfterFunc(d, f)] with [f] the function literal of [delay] *)
  | GoUploadFn (spans : list SpanData)
      (** [go e.uploadFn(spans)] *).

(** *** overflowLogger

    The mutex [mu] makes the body of [log] and the body of the function
    handed to [time.AfterFunc] atomic; each is one function here. *)
Record overflowLogger : Type := mkOverflowLogger {
  pause : bool;
  accum : Z
}.

Definition msg_buffer_full : string :=
  "OpenCensus Stackdriver exporter: failed to upload span: buffer full".

(** The text of [log.Printf("... failed to upload %d spans: buffer full", n)]. *)
Definition msg_buffer_full_count (n : Z) : string :=
  "OpenCensus Stackdriver exporter: failed to upload " +:+ pretty n
    +:+ " spans: buffer full".

Definition delay (o : overflowLogger) : overflowLogger * list effect :=
  ({| pause := true; accum := accum o |}, [AfterFunc (5 * Second)]).

(** The function literal that [delay] hands to [time.AfterFunc]. *)
Definition delay_func (o : overflowLogger) : overflowLogger * list effect :=
  if accum o =? 0 then
    ({| pause := false; accum := accum o |}, [])
  else if accum o =? 1 then
    let o := {| pause := pause o; accum := 0 |} in
    let '(o, eff) := delay o in
    (o, Println msg_buffer_full :: eff)
  else
    let line := msg_buffer_full_count (accum o) in
    let o := {| pause := pause o; accum := 0 |} in
    let '(o, eff) := delay o in
    (o, Println line :: eff).

Definition log (o : overflowLogger) : overflowLogger * list effect :=
  if negb (pause o) then
    let '(o, eff) := delay o in
    (o, Println msg_buffer_full :: eff)
  else
    ({| pause := pause o; accum := accum o + 1 |}, []).

(** *** The logger in time

    The process around the logger: the clock, the timers armed by
    [time.AfterFunc] and not yet run (by their deadlines), the lines
    written to the standard logger with the time of writing, and the
    upload tasks started. *)
Record world : Type := mkWorld {
  logger : overflowLogger;
  clock : Z;
  timers : list Z;
  output : list (Z * string);
  uploads : list (list SpanData)
}.

Definition initial : world :=
  {| logger := {| pause := false; accum := 0 |};
     clock := 0; timers := []; output := []; uploads := [] |}.

(** One effect, performed at time [t]. *)
Definition perform (t : Z) (w : world) (e : effect) : world :=
  match e with
  | Println line =>
      {| logger := logger w; clock := clock w; timers := timers w;
         output := output w ++ [(t, line)]; uploads := uploads w |}
  | AfterFunc d =>
      {| logger := logger w; clock := clock w; timers := timers w ++ [t + d];
         output := output w; uploads := uploads w |}
  | GoUploadFn spans =>
      {| logger := logger w; clock := clock w; timers := timers w;
         output := output w; uploads := uploads w ++ [spans] |}
  end.

(** Removes one armed timer with the given deadline, if there is one. *)
Fixpoint disarm (d : Z) (ts : list Z) : option (list Z) :=
  match ts with
  | [] => None
  | t :: ts' =>
      if t =? d then Some ts'
      else ts'' ← disarm d ts'; Some (t :: ts'')
  end.

(** What happens to the logger: a drop is reported ([log] is called) at
    time [t], or the timer armed for [deadline] runs its function at time
    [t]. *)
Inductive event : Type :=
  | Drop (t : Z)
  | TimerFires (deadline t : Z).

(** Runs a method of the logger at time [t] and performs its effects. *)
Definition at_time (t : Z) (w : world)
    (f : overflowLogger → overflowLogger * list effect) : world :=
  let '(o, eff) := f (logger w) in
  foldl (perform t)
    {| logger := o; clock := t; timers := timers w; output := output w;
       uploads := uploads w |} eff.

(** Time does not run backwards, and a timer runs no earlier than its
    deadline. *)
Definition step (w : world) (ev : event) : option world :=
  match ev with
  | Drop t =>
      if clock w <=? t then Some (at_time t w log) else None
  | TimerFires d t =>
      if (clock w <=? t) && (d <=? t) then
        ts ← disarm d (timers w);
        Some (at_time t
                {| logger := logger w; clock := clock w; timers := ts;
                   output := output w; uploads := uploads w |}
                delay_func)
      else None
  end.

Fixpoint run (w : world) (evs : list event) : option world :=
  match evs with
  | [] => Some w
  | ev :: evs' => w' ← step w ev; run w' evs'
  end.

(** The number of lines written at a time [t] with [T <= t < T + d]. *)
Definition lines_in_window (T d : Z) (out : list (Z * string)) : nat :=
  length (filter (λ l, T <= fst l < T + d) out).

(** The quiet window of the logger: [5*time.Second]. *)
Definition quiet_window : Z := 5 * Second.

(** Lines written at least [d] apart, in the order of writing. *)
Fixpoint spaced (d : Z) (out : list (Z * string)) : Prop :=
  match out with
  | [] => True
  | l :: out' => Forall (λ l', fst l + d <= fst l') out' ∧ spaced d out'
  end.

(** What holds of the logger and its timers at every moment: the lines
    written so far are a quiet window apart; while paused exactly one timer
    is armed, due a quiet window or more after every line; while not
    paused no timer is armed and every line is a quiet window old. *)
Definition logger_inv (w : world) : Prop :=
  spaced quiet_window (output w)
  ∧ if pause (logger w)
    then ∃ d, timers w = [d]
              ∧ Forall (λ l, fst l + quiet_window <= d) (output w)
    else timers w = []
         ∧ Forall (λ l, fst l + quiet_window <= clock w) (output w).

(** *** Exporter *)

Record Options : Type := mkOptions {
  ProjectID : string;
  BundleDelayThreshold : Z;
  BundleCountThreshold : Z
}.

(** The exporter.  [overflow] is the embedded [overflowLogger]; the fields
    [uploadFn] and [client] hold a function and a connection handle and
    carry no data of their own: a call of [uploadFn] in a goroutine is the
    effect [GoUploadFn]. *)
Record Exporter : Type := mkExporter {
  projectID : string;
  bundler : bundler.Bundler;
  overflow : overflowLogger
}.

Definition newExporter (o : Options) : Exporter :=
  let b := bundler.NewBundler in
  let delayThreshold :=
    if 0 <? BundleDelayThreshold o then BundleDelayThreshold o
    else 2 * Second in
  let countThreshold :=
    if 0 <? BundleCountThreshold o then BundleCountThreshold o
    else 50 in
  (* The measured "bytes" are not really bytes, see exportReceiver. *)
  {| projectID := ProjectID o;
     bundler :=
       {| bundler.DelayThreshold := delayThreshold;
          bundler.BundleCountThreshold := countThreshold;
          bundler.BundleByteThreshold := wrap64 (countThreshold * 200);
          bundler.BundleByteLimit := wrap64 (countThreshold * 1000);
          bundler.BufferedByteLimit := wrap64 (countThreshold * 2000);
          bundler.items := bundler.items b |};
     overflow := {| pause := false; accum := 0 |} |}.

Section Export_def.

(** [bundler.Add] of the external library: given the bundler, the item and
    its size, the error it returns (if any) and the bundler afterwards. *)
Variable Add : bundler.Bundler → SpanData → Z →
               option bundler.bundler_error * bundler.Bundler.

Definition Export (e : Exporter) (s : SpanData) : Exporter * list effect :=
  (* n is a length heuristic. *)
  let n := 1 in
  let n := n + Z.of_nat (size (Attributes s)) in
  let n := n + len (Annotations s) in
  let n := n + len (MessageEvents s) in
  let n := n + len (StackTrace s) in
  let '(err, b) := Add (bundler e) s n in
  let e := {| projectID := projectID e; bundler := b;
              overflow := overflow e |} in
  match err with
  | None => (e, [])
  | Some bundler.ErrOversizedItem => (e, [GoUploadFn [s]])
  | Some bundler.ErrOverflow =>
      let '(o, eff) := log (overflow e) in
      ({| projectID := projectID e; bundler := bundler e; overflow := o |},
       eff)
  | Some (bundler.ErrOther msg) =>
      (e, [Println ("OpenCensus Stackdriver exporter: failed to upload span: "
                      +:+ msg)])
  end.

End Export_def.

(** The weight of a record as the specification words it. *)
Definition weight (s : SpanData) : Z :=
  1 + Z.of_nat (size (Attributes s)) + len (Annotations s)
    + len (MessageEvents s) + len (StackTrace s).

(** *** Counting drops and lines *)

(** The line that reports [n] drops. *)
Definition line_of (n : Z) : string :=
  if n =? 1 then msg_buffer_full else msg_buffer_full_count n.

Definition total (counts : list Z) : Z := foldr Z.add 0 counts.

(** The number of drops among the events. *)
Definition drops (evs : list event) : Z :=
  total ((λ ev, match ev with Drop _ => 1 | TimerFires _ _ => 0 end) <$> evs).

(** *** uploadToStackdriver

    The request type of the generated client, the translation
    [protoFromSpanData] and the call [client.BatchWriteSpans] are outside
    the sources; the wire type of a span and the two functions are
    parameters, and the call returns the message of its error, if any. *)
Record BatchWriteSpansRequest (Span : Type) : Type := mkRequest {
  req_Name : string;
  req_Spans : list Span
}.
Arguments mkRequest {Span}.
Arguments req_Name {Span}.
Arguments req_Spans {Span}.

Section upload.

Variable Span : Type.
Variable protoFromSpanData : SpanData → string → Span.
Variable BatchWriteSpans : BatchWriteSpansRequest Span → option string.

(** The result is the request handed to the one call of the client, and
    what the function does besides. *)
Definition uploadToStackdriver (e : Exporter) (spans : list SpanData)
  : BatchWriteSpansRequest Span * list effect :=
  let req := {| req_Name := "projects/" +:+ projectID e; req_Spans := [] |} in
  let req :=
    foldl (λ req span,
             {| req_Name := req_Name req;
                req_Spans := req_Spans req
                               ++ [protoFromSpanData span (projectID e)] |})
          req spans in
  let err := BatchWriteSpans req in
  (req,
   match err with
   | Some msg =>
       [Println ("OpenCensus Stackdriver exporter: failed to upload "
                   +:+ pretty (len spans) +:+ " spans: " +:+ msg)]
   | None => []
   end).

End upload.

(** *** The exporter in time

    The exporter together with the process around it: [Export] is called
    with a record at some time, or an armed timer of the overflow logger
    runs.  The logger of the exporter is the one of the world. *)
Record process : Type := mkProcess {
  pid : string;
  pbundler : bundler.Bundler;
  env : world
}.

Definition exporter_of (p : process) : Exporter :=
  {| projectID := pid p; bundler := pbundler p; overflow := logger (env p) |}.

(** The process right after [newExporter]. *)
Definition start (e : Exporter) : process :=
  {| pid := projectID e; pbundler := bundler e;
     env := {| logger := overflow e; clock := 0; timers := []; output := [];
               uploads := [] |} |}.

Inductive pevent : Type :=
  | Exported (s : SpanData) (t : Z)
  | Timer (deadline t : Z).

Section process_steps.

Variable Add : bundler.Bundler → SpanData → Z →
               option bundler.bundler_error * bundler.Bundler.

Definition pstep (p : process) (ev : pevent) : option process :=
  match ev with
  | Exported s t =>
      if clock (env p) <=? t then
        let '(e, eff) := Export Add (exporter_of p) s in
        Some {| pid := projectID e; pbundler := bundler e;
                env := foldl (perform t)
                         {| logger := overflow e; clock := t;
                            timers := timers (env p);
                            output := output (env p);
                            uploads := uploads (env p) |} eff |}
      else None
  | Timer d t =>
      w ← step (env p) (TimerFires d t);
      Some {| pid := pid p; pbundler := pbundler p; env := w |}
  end.

Fixpoint prun (p : process) (evs : list pevent) : option process :=
  match evs with
  | [] => Some p
  | ev :: evs' => p' ← pstep p ev; prun p' evs'
  end.

End process_steps.

End stackdriver.

(** ** Package grpctrace *)

Module grpctrace.

(** [strings.Replace(s, "/", ".", -1)]: every byte [/] becomes [.]. *)
Fixpoint replace_slashes (s : string) : string :=
  match s with
  | EmptyString => EmptyString
  | String c s' =>
      String (if Ascii.eqb c "/" then "."%char else c) (replace_slashes s')
  end.

(** Whether the byte [c] occurs in [s]. *)
Fixpoint occurs (c : ascii) (s : string) : bool :=
  match s with
  | EmptyString => false
  | String c' s' => Ascii.eqb c' c || occurs c s'
  end.

(** The name of the span that [ClientStatsHandler.TagRPC] starts. *)
Definition client_span_name (FullMethodName : string) : string :=
  "Sent" +:+ replace_slashes FullMethodName.

(** The name of the span that [ServerStatsHandler.TagRPC] starts. *)
Definition server_span_name (FullMethodName : string) : string :=
  "Recv" +:+ replace_slashes FullMethodName.

(** What [grpc.Code] and [grpc.ErrorDesc] give for a non-nil error; a
    [codes.Code] is a [uint32]. *)
Record rpc_error : Type := mkRpcError {
  Code : Z;
  Desc : string
}.

(** The values of [stats.RPCStats] by their dynamic type, each with the
    fields [handleRPC] reads; [OtherStats] is any other implementation of
    the interface. *)
Inductive RPCStats : Type :=
  | Begin (Client FailFast : bool)
  | InPayload (Length WireLength : Z)
  | InHeader (WireLength : Z)
  | InTrailer (WireLength : Z)
  | OutPayload (Length WireLength : Z)
  | OutHeader
  | OutTrailer (WireLength : Z)
  | End (Error : option rpc_error)
  | OtherStats.

(** The calls into package trace. *)
Inductive trace_call : Type :=
  | SetSpanAttributes (attrs : list (string * bool))
  | AddMessageReceiveEvent (messageID uncompressed compressed : Z)
  | AddMessageSendEvent (messageID uncompressed compressed : Z)
  | SetSpanStatus (code : Z) (message : string)
  | EndSpan.

(** The conversion [int32(code)] of a [uint32]. *)
Definition int32 (z : Z) : Z := (z + 2 ^ 31) `mod` 2 ^ 32 - 2 ^ 31.

Definition handleRPC (rs : RPCStats) : list trace_call :=
  match rs with
  | Begin client failFast =>
      [SetSpanAttributes [("Client", client); ("FailFast", failFast)]]
  | InPayload length wireLength =>
      [AddMessageReceiveEvent 0 length wireLength]
  | InHeader wireLength =>
      [AddMessageReceiveEvent 0 wireLength wireLength]
  | InTrailer wireLength =>
      [AddMessageReceiveEvent 0 wireLength wireLength]
  | OutPayload length wireLength =>
      [AddMessageSendEvent 0 length wireLength]
  | OutHeader =>
      [AddMessageSendEvent 0 0 0]
  | OutTrailer wireLength =>
      [AddMessageSendEvent 0 wireLength wireLength]
  | End err =>
      match err with
      | Some e => [SetSpanStatus (int32 (Code e)) (Desc e)]
      | None => []
      end ++ [EndSpan]
  | OtherStats => []
  end.

(** The calls made for the stats of one RPC, in the order of arrival. *)
Definition handleRPCs (sts : list RPCStats) : list trace_call :=
  concat (handleRPC <$> sts).

Definition is_End (rs : RPCStats) : bool :=
  match rs with End _ => true | _ => false end.

Definition is_EndSpan (c : trace_call) : bool :=
  match c with EndSpan => true | _ => false end.

End grpctrace.

(** * Properties *)

(** ** The codec *)

Module tagencoding_facts.
Import Go tagencoding.

(** Case analysis on the integer comparisons of the goal. *)
Ltac zcases :=
  repeat match goal with
  | |- context [?a <=? ?b] => destruct (Z.leb_spec a b)
  | |- context [?a <? ?b] => destruct (Z.ltb_spec a b)
  | |- context [?a =? ?b] => destruct (Z.eqb_spec a b)
  end; simpl; try lia.

(** *** Concrete runs *)

Example write_two_values :
  WriteValues empty [[x61; x62]; []] =
    Some {| Buffer := [x02; x00; x61; x62; x00; x00];
            WriteIndex := 6; ReadIndex := 0 |}.
Proof. reflexivity. Qed.

Example read_two_values :
  ReadValues 2 {| Buffer := [x02; x00; x61; x62; x00; x00];
                  WriteIndex := 6; ReadIndex := 0 |} =
    Some ([go_slice [x61; x62]; go_nil],
          {| Buffer := [x02; x00; x61; x62; x00; x00];
             WriteIndex := 6; ReadIndex := 6 |}).
Proof. reflexivity. Qed.

Example write_into_full_buffer :
  WriteValue {| Buffer := [x02; x00; x61; x62; x00; x00];
                WriteIndex := 6; ReadIndex := 0 |} [x63] =
    Some {| Buffer := [x02; x00; x61; x62; x00; x00; x01; x00; x63]
                        ++ replicate 8 x00;
            WriteIndex := 9; ReadIndex := 0 |}.
Proof. reflexivity. Qed.

Example read_past_the_buffer :
  ReadValue {| Buffer := [x00; x00]; WriteIndex := 2; ReadIndex := 2 |} = None.
Proof. reflexivity. Qed.

(** A value of 65536 bytes breaks the framing: its prefix reads as 0, the
    next two reads take their lengths from payload bytes, and after three
    writes and three reads the read cursor has passed the write cursor. *)
Example long_value_misleads_reader :
  let v := [x64; x00] ++ replicate 100 x00 ++ [xff; xff]
           ++ replicate (Z.to_nat 65432) x00 in
  len v = 65536
  ∧ (vb ← WriteValues empty [v; []; []];
     r ← ReadValues 3 vb;
     Some (map (λ x : bytes_result, len (result_bytes x)) (fst r),
           WriteIndex (snd r), ReadIndex (snd r)))
    = Some ([0; 100; 65535], 65542, 65641).
Proof. vm_compute. split; reflexivity. Qed.

(** *** Bytes and 16-bit lengths *)

Lemma Z_of_byte_range b : 0 <= Z_of_byte b < 256.
Proof.
  unfold Z_of_byte. pose proof (Byte.to_N_bounded b). lia.
Qed.

Lemma Z_of_byte_of_Z z : Z_of_byte (byte_of_Z z) = Z.land z 255.
Proof.
  unfold Z_of_byte, byte_of_Z.
  assert (Hr : 0 <= Z.land z 255 < 256).
  { change 255 with (Z.ones 8). rewrite Z.land_ones by lia.
    apply Z.mod_pos_bound. lia. }
  destruct (Byte.of_N (Z.to_N (Z.land z 255))) as [b|] eqn:E.
  - apply Byte.to_of_N in E. simpl. rewrite E. lia.
  - apply Byte.of_N_None_iff in E. lia.
Qed.

Lemma byte_of_Z_of_byte b : byte_of_Z (Z_of_byte b) = b.
Proof.
  unfold byte_of_Z.
  pose proof (Z_of_byte_range b) as Hr.
  change 255 with (Z.ones 8). rewrite Z.land_ones by lia.
  rewrite Z.mod_small by lia.
  unfold Z_of_byte. rewrite N2Z.id, Byte.of_to_N. reflexivity.
Qed.

Lemma uint16_of_int_low_bytes n :
  uint16_of_bytes (int_low_bytes n).1 (int_low_bytes n).2 = n `mod` 65536.
Proof.
  unfold uint16_of_bytes, int_low_bytes. simpl.
  rewrite !Z_of_byte_of_Z.
  change 255 with (Z.ones 8). change 65536 with (2 ^ 16).
  rewrite <- Z.land_ones by lia.
  apply Z.bits_inj'. intros i Hi.
  rewrite Z.lor_spec, Z.land_spec.
  destruct (Z_lt_ge_dec i 8) as [Hlt|Hge].
  - rewrite Z.shiftl_spec_low by lia. rewrite orb_false_r.
    rewrite Z.land_spec. rewrite !Z.testbit_ones_nonneg by lia.
    f_equal. destruct (Z.ltb_spec i 8), (Z.ltb_spec i 16); lia || reflexivity.
  - rewrite Z.shiftl_spec by lia. rewrite !Z.land_spec.
    rewrite Z.shiftr_spec by lia. replace (i - 8 + 8) with i by lia.
    rewrite !Z.testbit_ones_nonneg by lia.
    destruct (Z.ltb_spec i 8), (Z.ltb_spec (i-8) 8), (Z.ltb_spec i 16); try lia;
    rewrite ?andb_false_r, ?andb_true_r; simpl; reflexivity.
Qed.

(** *** The slice operations on a buffer split at the cursor *)

Lemma copy_into_zeros (n : nat) (s : list byte) :
  (length s <= n)%nat →
  copy (replicate n x00) s = s ++ replicate (n - length s) x00.
Proof.
  intros Hle. unfold copy. rewrite length_replicate.
  rewrite take_ge by lia. by rewrite drop_replicate.
Qed.

Lemma copy_prefix (v rest : list byte) :
  (length v <= length rest)%nat →
  copy rest v = v ++ drop (length v) rest.
Proof. intros Hle. unfold copy. by rewrite take_ge by lia. Qed.

Lemma copy_exact (v src : list byte) :
  length v = length src → copy v src = src.
Proof.
  intros Hlen. unfold copy. rewrite take_ge by lia.
  rewrite drop_ge by lia. apply app_nil_r.
Qed.

Lemma store_app (pre : list byte) (x b : byte) (post : list byte) :
  store (pre ++ x :: post) (len pre) b = Some (pre ++ b :: post).
Proof.
  unfold store, len. rewrite length_app. simpl.
  zcases. rewrite Nat2Z.id.
  f_equal. rewrite insert_app_r_alt by lia.
  by replace (length pre - length pre)%nat with 0%nat by lia.
Qed.

Lemma index_app (pre : list byte) (x : byte) (post : list byte) :
  index (pre ++ x :: post) (len pre) = Some x.
Proof.
  unfold index, len. rewrite length_app. simpl.
  zcases. rewrite Nat2Z.id. by rewrite list_lookup_middle.
Qed.

Lemma copy_from_app (pre rest v : list byte) :
  (length v <= length rest)%nat →
  copy_from (pre ++ rest) (len pre) v = Some (pre ++ v ++ drop (length v) rest).
Proof.
  intros Hle. unfold copy_from, len. rewrite length_app.
  zcases. rewrite Nat2Z.id.
  rewrite take_app_length, drop_app_length. by rewrite copy_prefix.
Qed.

Lemma slice_app (pre mid post : list byte) :
  slice (pre ++ mid ++ post) (len pre) (len pre + len mid) = Some mid.
Proof.
  unfold slice, len. rewrite !length_app.
  zcases. rewrite Nat2Z.id, drop_app_length.
  replace (Z.to_nat _) with (length mid) by lia.
  by rewrite take_app_length.
Qed.

Lemma len_app {A} (l k : list A) : len (l ++ k) = len l + len k.
Proof. unfold len. rewrite length_app. lia. Qed.

Lemma len_nonneg {A} (l : list A) : 0 <= len l.
Proof. unfold len. lia. Qed.

Lemma len_encode v : len (encode v) = 2 + len v.
Proof. unfold encode, len. simpl. lia. Qed.

(** *** One write, one read *)

(** Growing: the old content is a prefix of the new buffer, and the new
    buffer has room for [expected] more bytes. *)
Lemma growIfRequired_spec vb expected :
  wf vb → 0 <= expected →
  ∃ pad,
    growIfRequired vb expected =
      Some {| Buffer := Buffer vb ++ pad; WriteIndex := WriteIndex vb;
              ReadIndex := ReadIndex vb |}
    ∧ WriteIndex vb + expected <= len (Buffer vb ++ pad)
    ∧ len (Buffer vb ++ pad) =
        (if len (Buffer vb) - WriteIndex vb <? expected
         then 2 * (len (Buffer vb) + 1) + expected
         else len (Buffer vb)).
Proof.
  intros [H0 Hw] He. unfold growIfRequired.
  destruct (Z.ltb_spec (len (Buffer vb) - WriteIndex vb) expected) as [Hlt|Hge].
  - unfold make. pose proof (len_nonneg (Buffer vb)).
    zcases. simpl.
    eexists. split.
    + rewrite copy_into_zeros; [reflexivity|]. unfold len in *. lia.
    + rewrite len_app. unfold len in *. rewrite length_replicate. lia.
  - exists []. rewrite app_nil_r. destruct vb; simpl in *. split; [done|]. lia.
Qed.

Lemma WriteValue_spec vb v :
  wf vb →
  ∃ pad post,
    growIfRequired vb (sizeOfUint16 + len v) =
      Some {| Buffer := Buffer vb ++ pad; WriteIndex := WriteIndex vb;
              ReadIndex := ReadIndex vb |}
    ∧ WriteValue vb v =
      Some {| Buffer := take (Z.to_nat (WriteIndex vb)) (Buffer vb)
                         ++ encode v ++ post;
              WriteIndex := WriteIndex vb + 2 + len v;
              ReadIndex := ReadIndex vb |}
    ∧ length (Buffer vb ++ pad) =
      length (take (Z.to_nat (WriteIndex vb)) (Buffer vb) ++ encode v ++ post).
Proof.
  intros Hwf. pose proof (len_nonneg v) as Hv.
  destruct (growIfRequired_spec vb (sizeOfUint16 + len v) Hwf)
    as (pad & Hg & Hroom & _).
  { unfold sizeOfUint16. lia. }
  exists pad. unfold WriteValue. rewrite Hg. simpl.
  destruct Hwf as [H0 Hw].
  set (pre := take (Z.to_nat (WriteIndex vb)) (Buffer vb)).
  set (rest := drop (Z.to_nat (WriteIndex vb)) (Buffer vb) ++ pad).
  assert (Hsplit : Buffer vb ++ pad = pre ++ rest).
  { unfold pre, rest. by rewrite app_assoc, take_drop. }
  assert (Hpre : len pre = WriteIndex vb).
  { unfold pre, len in *. rewrite length_take. lia. }
  assert (Hrest : sizeOfUint16 + len v <= len rest).
  { rewrite Hsplit, len_app in Hroom. lia. }
  rewrite Hsplit.
  destruct rest as [|x0 [|x1 rest']];
    [unfold sizeOfUint16, len in Hrest; simpl in Hrest; lia ..|].
  exists (drop (length v) rest').
  rewrite <- Hpre, store_app. simpl.
  replace (pre ++ byte_of_Z (len v) :: x1 :: rest')
    with ((pre ++ [byte_of_Z (len v)]) ++ x1 :: rest') by by rewrite <- app_assoc.
  replace (len pre + 1) with (len (pre ++ [byte_of_Z (len v)]))
    by (rewrite len_app; reflexivity).
  rewrite store_app. simpl.
  assert (Hlv : (length v <= length rest')%nat).
  { unfold sizeOfUint16, len in Hrest. simpl in Hrest. lia. }
  destruct (Z.eqb_spec (len v) 0) as [Hz|Hnz].
  - assert (v = []) as -> by (destruct v; [done | unfold len in Hz; simpl in Hz; lia]).
    simpl. rewrite drop_0, <- !app_assoc. simpl. split; [done|].
    split; [f_equal; f_equal; try done; unfold len; rewrite ?length_app; simpl; lia|].
    rewrite !length_app. simpl. lia.
  - replace (len (pre ++ [byte_of_Z (len v)]) + 1)
      with (len ((pre ++ [byte_of_Z (len v)]) ++ [byte_of_Z (len v ≫ 8)]))
      by (rewrite !len_app; reflexivity).
    replace ((pre ++ [byte_of_Z (len v)]) ++ byte_of_Z (len v ≫ 8) :: rest')
      with (((pre ++ [byte_of_Z (len v)]) ++ [byte_of_Z (len v ≫ 8)]) ++ rest')
      by by rewrite <- !app_assoc.
    rewrite copy_from_app by done. simpl.
    rewrite <- !app_assoc. simpl. split; [done|].
    split; [f_equal; f_equal; try done; unfold len; rewrite ?length_app; simpl; lia|].
    rewrite !length_app. simpl. rewrite !length_app, length_drop. lia.
Qed.

Lemma take_len {A} (l : list A) : take (Z.to_nat (len l)) l = l.
Proof. unfold len. rewrite Nat2Z.id. apply take_ge. lia. Qed.

Lemma slice_app_take (pre rest : list byte) (k : Z) :
  0 <= k <= len rest →
  slice (pre ++ rest) (len pre) (len pre + k) = Some (take (Z.to_nat k) rest).
Proof.
  intros Hk. unfold slice. rewrite len_app. unfold len in *.
  zcases. rewrite Nat2Z.id, drop_app_length.
  by replace (Z.of_nat (length pre) + k - Z.of_nat (length pre)) with k by lia.
Qed.

(** Reading at the start of an encoded value: the decoded length is the
    written length modulo [2^16], and that many payload bytes come back. *)
Lemma ReadValue_spec vb pre v post :
  Buffer vb = pre ++ encode v ++ post →
  ReadIndex vb = len pre →
  ReadValue vb =
    Some (read_back (take (Z.to_nat (len v `mod` 65536)) v),
          {| Buffer := Buffer vb; WriteIndex := WriteIndex vb;
             ReadIndex := len pre + 2 + len v `mod` 65536 |}).
Proof.
  intros HB HR. unfold ReadValue. rewrite HB, HR. unfold encode. simpl.
  rewrite index_app. simpl.
  replace (pre ++ byte_of_Z (len v) :: byte_of_Z (len v ≫ 8) :: v ++ post)
    with ((pre ++ [byte_of_Z (len v)]) ++ byte_of_Z (len v ≫ 8) :: v ++ post)
    by by rewrite <- app_assoc.
  replace (len pre + 1) with (len (pre ++ [byte_of_Z (len v)]))
    by (rewrite len_app; reflexivity).
  rewrite index_app. simpl.
  pose proof (uint16_of_int_low_bytes (len v)) as Hu. simpl in Hu. rewrite Hu.
  pose proof (Z.mod_pos_bound (len v) 65536 ltac:(lia)) as Hm.
  pose proof (len_nonneg v) as Hv.
  assert (Hle : len v `mod` 65536 <= len v) by (apply Z.mod_le; lia).
  set (k := len v `mod` 65536) in *.
  assert (Hk : len (take (Z.to_nat k) v) = k).
  { unfold len in *. rewrite length_take. lia. }
  unfold read_back. rewrite Hk.
  destruct (Z.eqb_spec k 0) as [Hz|Hnz].
  - do 3 f_equal. unfold sizeOfUint16. lia.
  - unfold make. zcases. simpl.
    replace ((pre ++ [byte_of_Z (len v)]) ++ byte_of_Z (len v ≫ 8) :: v ++ post)
      with ((pre ++ [byte_of_Z (len v); byte_of_Z (len v ≫ 8)]) ++ (v ++ post))
      by (rewrite <- !app_assoc; reflexivity).
    replace (len pre + sizeOfUint16)
      with (len (pre ++ [byte_of_Z (len v); byte_of_Z (len v ≫ 8)]))
      by (rewrite len_app; reflexivity).
    rewrite slice_app_take by (rewrite len_app; pose proof (len_nonneg post); lia).
    simpl. rewrite take_app_le by (unfold len in *; lia).
    rewrite copy_exact by (rewrite length_replicate; unfold len in Hk; lia).
    do 3 f_equal. rewrite len_app. unfold len. simpl. lia.
Qed.

Lemma ReadValue_bounded vb pre v post :
  Buffer vb = pre ++ encode v ++ post →
  ReadIndex vb = len pre →
  len v <= 65535 →
  ReadValue vb =
    Some (read_back v,
          {| Buffer := Buffer vb; WriteIndex := WriteIndex vb;
             ReadIndex := len pre + len (encode v) |}).
Proof.
  intros HB HR Hv. rewrite (ReadValue_spec vb pre v post HB HR).
  pose proof (len_nonneg v). rewrite Z.mod_small by lia.
  rewrite take_len, len_encode. do 3 f_equal. lia.
Qed.

(** *** Sequences of writes and reads *)

Lemma WriteValues_spec vs : ∀ vb,
  wf vb →
  ∃ post,
    WriteValues vb vs =
      Some {| Buffer := take (Z.to_nat (WriteIndex vb)) (Buffer vb)
                         ++ encode_all vs ++ post;
              WriteIndex := WriteIndex vb + len (encode_all vs);
              ReadIndex := ReadIndex vb |}.
Proof.
  induction vs as [|v vs IH]; intros vb Hwf.
  - exists (drop (Z.to_nat (WriteIndex vb)) (Buffer vb)).
    simpl. rewrite take_drop. destruct vb; simpl. do 2 f_equal. unfold len; simpl; lia.
  - destruct (WriteValue_spec vb v Hwf) as (pad & post & _ & Hw & _).
    cbn [WriteValues]. rewrite Hw. cbn [mbind option_bind].
    set (pre := take (Z.to_nat (WriteIndex vb)) (Buffer vb)) in *.
    assert (Hpre : len pre = WriteIndex vb).
    { destruct Hwf. unfold pre, len in *. rewrite length_take. lia. }
    edestruct (IH {| Buffer := pre ++ encode v ++ post;
                     WriteIndex := WriteIndex vb + 2 + len v;
                     ReadIndex := ReadIndex vb |}) as (post' & Hrec).
    { unfold wf. cbn [Buffer WriteIndex]. rewrite !len_app, len_encode, Hpre.
      pose proof (len_nonneg v). pose proof (len_nonneg post). destruct Hwf. lia. }
    rewrite Hrec. cbn [Buffer WriteIndex ReadIndex]. exists post'. do 2 f_equal.
    + replace (WriteIndex vb + 2 + len v) with (len (pre ++ encode v))
        by (rewrite len_app, len_encode; lia).
      rewrite (app_assoc pre). unfold len at 1. rewrite Nat2Z.id, take_app_length.
      unfold encode_all. cbn [fmap list_fmap concat]. by rewrite <- !app_assoc.
    + unfold encode_all. cbn [fmap list_fmap concat]. rewrite len_app, len_encode. lia.
Qed.

Lemma ReadValues_spec vs : ∀ vb pre post,
  Buffer vb = pre ++ encode_all vs ++ post →
  ReadIndex vb = len pre →
  Forall (λ v, len v <= 65535) vs →
  ReadValues (length vs) vb =
    Some (read_back <$> vs,
          {| Buffer := Buffer vb; WriteIndex := WriteIndex vb;
             ReadIndex := len pre + len (encode_all vs) |}).
Proof.
  induction vs as [|v vs IH]; intros vb pre post HB HR Hall.
  - simpl. destruct vb; simpl in *. subst. do 3 f_equal. unfold len; simpl; lia.
  - apply Forall_cons in Hall as [Hv Hall].
    unfold encode_all in HB. cbn [fmap list_fmap concat] in HB.
    rewrite <- app_assoc in HB. fold (encode_all vs) in HB.
    cbn [length ReadValues].
    rewrite (ReadValue_bounded vb pre v _ HB HR Hv). cbn [mbind option_bind].
    rewrite (IH _ (pre ++ encode v) post); cbn [Buffer WriteIndex ReadIndex];
      [|by rewrite HB, <- !app_assoc|by rewrite len_app|done].
    cbn [mbind option_bind fmap list_fmap]. do 3 f_equal.
    unfold encode_all. cbn [fmap list_fmap concat]. rewrite !len_app. lia.
Qed.

Lemma Bytes_prefix vb pre post :
  Buffer vb = pre ++ post → WriteIndex vb = len pre → Bytes vb = Some pre.
Proof.
  intros HB HW. unfold Bytes. rewrite HB, HW.
  replace (len pre) with (0 + len pre) at 1 by lia.
  change (pre ++ post) with ([] ++ pre ++ post).
  change 0 with (len (@nil byte)). apply slice_app.
Qed.

(** From the empty buffer: the buffer holds the encodings, in order, and
    nothing else below the write cursor. *)
Lemma WriteValues_empty vs :
  ∃ post,
    WriteValues empty vs =
      Some {| Buffer := encode_all vs ++ post;
              WriteIndex := len (encode_all vs);
              ReadIndex := 0 |}.
Proof.
  destruct (WriteValues_spec vs empty) as (post & H).
  { unfold wf, empty, len. simpl. lia. }
  exists post. rewrite H. reflexivity.
Qed.

Lemma encode_all_app vs ws :
  encode_all (vs ++ ws) = encode_all vs ++ encode_all ws.
Proof. unfold encode_all. by rewrite fmap_app, concat_app. Qed.

Lemma WriteValues_app vs ws : ∀ vb,
  WriteValues vb (vs ++ ws) = vb' ← WriteValues vb vs; WriteValues vb' ws.
Proof.
  induction vs as [|v vs IH]; intros vb; [done|].
  cbn [app WriteValues]. destruct (WriteValue vb v) as [vb1|]; [|done].
  cbn [mbind option_bind]. apply IH.
Qed.

(** C1.  Round trip: writing the byte strings [vs], each of at most 65535
    bytes, into an empty buffer and then calling [ReadValue] as many times
    as there were writes succeeds and gives back the values in order; the
    content of every result is the written byte string, and a zero-length
    value comes back as the nil slice. *)
Theorem write_read_roundtrip (vs : list (list byte)) :
  Forall (λ v, len v <= 65535) vs →
  ∃ vb rs vb',
    WriteValues empty vs = Some vb
    ∧ ReadValues (length vs) vb = Some (rs, vb')
    ∧ result_bytes <$> rs = vs
    ∧ Forall2 (λ v r, r = if len v =? 0 then go_nil else go_slice v) vs rs.
Proof.
  intros Hall. destruct (WriteValues_empty vs) as (post & Hw).
  eexists _, (read_back <$> vs), _. split; [exact Hw|].
  split.
  { apply (ReadValues_spec vs _ [] post); [reflexivity|reflexivity|exact Hall]. }
  split.
  - clear. induction vs as [|v vs IH]; [done|].
    cbn [fmap list_fmap] in *. f_equal; [|exact IH].
    unfold read_back. destruct (Z.eqb_spec (len v) 0) as [Hz|]; [|done].
    destruct v; [done|]. unfold len in Hz. simpl in Hz. lia.
  - clear. induction vs as [|v vs IH]; constructor; [done|exact IH].
Qed.

Lemma write_read_roundtrip_witness :
  let vs := [[x01; x02; x03]; []; [xff]] in
  Forall (λ v, len v <= 65535) vs
  ∧ ∃ vb rs vb',
      WriteValues empty vs = Some vb
      ∧ ReadValues (length vs) vb = Some (rs, vb')
      ∧ result_bytes <$> rs = vs
      ∧ Forall2 (λ v r, r = if len v =? 0 then go_nil else go_slice v) vs rs.
Proof.
  assert (H : Forall (λ v, len v <= 65535) [[x01; x02; x03]; []; [xff]]).
  { repeat constructor; unfold len; simpl; lia. }
  split; [exact H|]. exact (write_read_roundtrip _ H).
Defined.

(** C4.  After any sequence of writes into an empty buffer, [Bytes] is the
    concatenation, in order, of the encoded values, each a 2-byte length
    prefix followed by its payload; and further writes, growing the
    storage or not, leave the bytes written so far where they are. *)
Theorem Bytes_is_concatenation (vs ws : list (list byte)) :
  ∃ vb vb',
    WriteValues empty vs = Some vb
    ∧ Bytes vb = Some (concat ((λ v, byte_of_Z (len v)
                                      :: byte_of_Z (Z.shiftr (len v) 8)
                                      :: v) <$> vs))
    ∧ WriteValues vb ws = Some vb'
    ∧ Bytes vb' = Some (encode_all vs ++ encode_all ws)
    ∧ take (Z.to_nat (WriteIndex vb)) (Buffer vb') = encode_all vs.
Proof.
  destruct (WriteValues_empty vs) as (post & Hw).
  destruct (WriteValues_empty (vs ++ ws)) as (post' & Hw').
  rewrite WriteValues_app, Hw in Hw'. cbn [mbind option_bind] in Hw'.
  eexists _, _. split; [exact Hw|]. split.
  { apply (Bytes_prefix _ _ post); reflexivity. }
  split; [exact Hw'|]. split.
  { apply (Bytes_prefix _ _ post'); cbn [Buffer WriteIndex];
      by rewrite encode_all_app. }
  cbn [Buffer WriteIndex]. rewrite encode_all_app, <- app_assoc.
  unfold len. rewrite Nat2Z.id. apply take_app_length.
Qed.

(** C6.  On a buffer that satisfies its invariant, [WriteValue] replaces
    the backing storage exactly when the remaining capacity
    [len(Buffer) - WriteIndex] is smaller than the [2 + len(v)] bytes
    required; the new storage then has [2 * (len(Buffer) + 1) + required]
    bytes, which leaves room for the whole write; and when the remaining
    capacity suffices the buffer is kept as it is. *)
Theorem WriteValue_growth (vb : Values) (v : list byte) :
  wf vb →
  let required := sizeOfUint16 + len v in
  let remaining := len (Buffer vb) - WriteIndex vb in
  ∃ grown vb',
    growIfRequired vb required = Some grown
    ∧ WriteValue vb v = Some vb'
    ∧ len (Buffer vb') = len (Buffer grown)
    ∧ (len (Buffer grown) ≠ len (Buffer vb) ↔ remaining < required)
    ∧ (remaining < required →
       len (Buffer grown) = 2 * (len (Buffer vb) + 1) + required)
    ∧ (required <= remaining → grown = vb)
    ∧ required <= len (Buffer grown) - WriteIndex grown
    ∧ WriteIndex vb' = WriteIndex vb + required.
Proof.
  intros Hwf required remaining.
  pose proof (len_nonneg v) as Hv. pose proof (len_nonneg (Buffer vb)) as HB.
  destruct (growIfRequired_spec vb required Hwf) as (pad & Hg & Hroom & Hlen).
  { unfold required, sizeOfUint16. lia. }
  destruct (WriteValue_spec vb v Hwf) as (pad' & post & Hg' & Hw & Hl).
  fold required in Hg'. rewrite Hg in Hg'.
  assert (pad' = pad) as -> by (injection Hg' as Hg'; by apply app_inv_head in Hg').
  eexists _, _. split; [exact Hg|]. split; [exact Hw|].
  cbn [Buffer WriteIndex]. fold remaining in Hlen.
  destruct Hwf as [H0 Hwi].
  destruct (Z.ltb_spec remaining required) as [Hlt|Hge].
  - repeat split; try (unfold len in *; lia).
    unfold required, sizeOfUint16. lia.
  - assert (pad = []) as ->.
    { rewrite len_app in Hlen. destruct pad; [done|].
      unfold len in Hlen. simpl in Hlen. lia. }
    rewrite app_nil_r in *.
    repeat split; try (unfold len in *; lia).
    + intros _. by destruct vb.
    + unfold required, sizeOfUint16. lia.
Qed.

Lemma WriteValue_growth_witness :
  let vb := {| Buffer := [x00; x00; x00]; WriteIndex := 2; ReadIndex := 0 |} in
  let v := [x07; x08] in
  wf vb
  ∧ ∃ grown vb',
      growIfRequired vb (sizeOfUint16 + len v) = Some grown
      ∧ WriteValue vb v = Some vb'
      ∧ len (Buffer vb') = len (Buffer grown)
      ∧ (len (Buffer grown) ≠ len (Buffer vb)
         ↔ len (Buffer vb) - WriteIndex vb < sizeOfUint16 + len v)
      ∧ (len (Buffer vb) - WriteIndex vb < sizeOfUint16 + len v →
         len (Buffer grown) = 2 * (len (Buffer vb) + 1) + (sizeOfUint16 + len v))
      ∧ (sizeOfUint16 + len v <= len (Buffer vb) - WriteIndex vb → grown = vb)
      ∧ sizeOfUint16 + len v <= len (Buffer grown) - WriteIndex grown
      ∧ WriteIndex vb' = WriteIndex vb + (sizeOfUint16 + len v).
Proof.
  assert (H : wf {| Buffer := [x00; x00; x00]; WriteIndex := 2; ReadIndex := 0 |}).
  { unfold wf, len. simpl. lia. }
  split; [exact H|]. exact (WriteValue_growth _ [x07; x08] H).
Defined.

(** C7.  After any sequence of writes into an empty buffer the write
    cursor lies within the storage; and when the written values respect
    the 16-bit length contract, after any number [k] of reads that does not
    exceed the number of writes the read cursor has not passed the write
    cursor. *)
Theorem index_invariants (vs : list (list byte)) (k : nat) :
  ∃ vb,
    WriteValues empty vs = Some vb
    ∧ 0 <= WriteIndex vb <= len (Buffer vb)
    ∧ (Forall (λ v, len v <= 65535) vs →
       (k <= length vs)%nat →
       ∃ rs vb',
         ReadValues k vb = Some (rs, vb')
         ∧ WriteIndex vb' = WriteIndex vb
         ∧ 0 <= ReadIndex vb' <= WriteIndex vb').
Proof.
  destruct (WriteValues_empty vs) as (post & Hw).
  eexists. split; [exact Hw|]. cbn [Buffer WriteIndex]. split.
  { rewrite len_app. pose proof (len_nonneg (encode_all vs)).
    pose proof (len_nonneg post). lia. }
  intros Hall Hk.
  set (vb := {| Buffer := encode_all vs ++ post;
                WriteIndex := len (encode_all vs); ReadIndex := 0 |}).
  assert (Hsplit : encode_all vs = encode_all (take k vs) ++ encode_all (drop k vs)).
  { by rewrite <- encode_all_app, take_drop. }
  pose proof (ReadValues_spec (take k vs) vb []
                (encode_all (drop k vs) ++ post)) as Hr.
  rewrite length_take, Nat.min_l in Hr by lia.
  eexists _, _. split.
  { apply Hr; [|reflexivity|by apply Forall_take].
    unfold vb. cbn [Buffer]. rewrite Hsplit at 1. by rewrite <- app_assoc. }
  cbn [WriteIndex ReadIndex]. split; [reflexivity|].
  unfold vb. cbn [WriteIndex]. rewrite Hsplit, len_app.
  pose proof (len_nonneg (encode_all (take k vs))).
  pose proof (len_nonneg (encode_all (drop k vs))).
  change (len (@nil byte)) with 0. lia.
Qed.

Lemma index_invariants_witness :
  let vs := [[x01; x02]; []; [x03]] in
  ∃ vb,
    WriteValues empty vs = Some vb
    ∧ 0 <= WriteIndex vb <= len (Buffer vb)
    ∧ ∃ rs vb',
        ReadValues 2 vb = Some (rs, vb')
        ∧ WriteIndex vb' = WriteIndex vb
        ∧ 0 <= ReadIndex vb' <= WriteIndex vb'.
Proof.
  destruct (index_invariants [[x01; x02]; []; [x03]] 2) as (vb & Hw & Hwi & Hr).
  exists vb. split; [exact Hw|]. split; [exact Hwi|].
  apply Hr.
  - repeat constructor; unfold len; simpl; lia.
  - simpl. lia.
Defined.

Lemma len_result_read_back (l : list byte) :
  len (result_bytes (read_back l)) = len l.
Proof.
  unfold read_back. destruct (Z.eqb_spec (len l) 0) as [Hz|]; [|done].
  by rewrite Hz.
Qed.

(** C10.  A value of 65536 bytes or more is written without any check and
    without failure: the two prefix bytes hold the length modulo [2^16],
    all payload bytes follow, and a [ReadValue] placed at this value
    decodes a length that differs from the one written and stops inside
    the payload. *)
Theorem WriteValue_long_value (vb : Values) (v : list byte) :
  wf vb →
  65536 <= len v →
  ∃ vb' b0 b1,
    WriteValue vb v = Some vb'
    ∧ WriteIndex vb' = WriteIndex vb + 2 + len v
    ∧ slice (Buffer vb') (WriteIndex vb) (WriteIndex vb') = Some (b0 :: b1 :: v)
    ∧ uint16_of_bytes b0 b1 = len v `mod` 2 ^ 16
    ∧ ∃ r vb'',
        ReadValue {| Buffer := Buffer vb'; WriteIndex := WriteIndex vb';
                     ReadIndex := WriteIndex vb |} = Some (r, vb'')
        ∧ len (result_bytes r) = len v `mod` 2 ^ 16
        ∧ len (result_bytes r) ≠ len v
        ∧ ReadIndex vb'' < WriteIndex vb'.
Proof.
  intros Hwf Hlong.
  destruct (WriteValue_spec vb v Hwf) as (pad & post & _ & Hw & _).
  set (pre := take (Z.to_nat (WriteIndex vb)) (Buffer vb)) in *.
  assert (Hpre : len pre = WriteIndex vb).
  { destruct Hwf. unfold pre, len in *. rewrite length_take. lia. }
  pose proof (Z.mod_pos_bound (len v) (2 ^ 16) ltac:(lia)) as Hm.
  change (2 ^ 16) with 65536 in *.
  eexists _, (byte_of_Z (len v)), (byte_of_Z (Z.shiftr (len v) 8)).
  split; [exact Hw|]. cbn [Buffer WriteIndex ReadIndex].
  split; [reflexivity|]. split.
  { rewrite <- Hpre. replace (len pre + 2 + len v) with (len pre + len (encode v))
      by (rewrite len_encode; lia).
    apply slice_app. }
  split; [exact (uint16_of_int_low_bytes (len v))|].
  eexists _, _. split.
  { apply (ReadValue_spec _ pre v post); [reflexivity|by rewrite Hpre]. }
  cbn [ReadIndex]. rewrite len_result_read_back.
  assert (Hk : len (take (Z.to_nat (len v `mod` 65536)) v) = len v `mod` 65536).
  { unfold len in *. rewrite length_take. lia. }
  rewrite Hk. repeat split; lia.
Qed.

Lemma WriteValue_long_value_witness :
  let v := replicate (Z.to_nat 65536) x2a in
  wf empty ∧ 65536 <= len v
  ∧ ∃ vb' b0 b1,
      WriteValue empty v = Some vb'
      ∧ WriteIndex vb' = WriteIndex empty + 2 + len v
      ∧ slice (Buffer vb') (WriteIndex empty) (WriteIndex vb')
        = Some (b0 :: b1 :: v)
      ∧ uint16_of_bytes b0 b1 = len v `mod` 2 ^ 16
      ∧ ∃ r vb'',
          ReadValue {| Buffer := Buffer vb'; WriteIndex := WriteIndex vb';
                       ReadIndex := WriteIndex empty |} = Some (r, vb'')
          ∧ len (result_bytes r) = len v `mod` 2 ^ 16
          ∧ len (result_bytes r) ≠ len v
          ∧ ReadIndex vb'' < WriteIndex vb'.
Proof.
  assert (H1 : wf empty) by (unfold wf, empty, len; simpl; lia).
  assert (H2 : 65536 <= len (replicate (Z.to_nat 65536) x2a)).
  { unfold len. rewrite length_replicate. lia. }
  split; [exact H1|]. split; [exact H2|].
  exact (WriteValue_long_value empty _ H1 H2).
Defined.

End tagencoding_facts.

(** ** The overflow logger and the exporter *)

Module stackdriver_facts.
Import Go trace stackdriver.

(** *** A concrete run: five drops in a row, then the timer *)

Example five_drops_then_timer :
  output <$> run initial [Drop 0; Drop 10; Drop 20; Drop 30; Drop 40;
                          TimerFires 5000000000 5000000000] =
    Some [(0, "OpenCensus Stackdriver exporter: failed to upload span: buffer full");
          (5000000000,
           "OpenCensus Stackdriver exporter: failed to upload 4 spans: buffer full")].
Proof. reflexivity. Qed.

Example timer_before_deadline :
  run initial [Drop 0; TimerFires 5000000000 4999999999] = None.
Proof. reflexivity. Qed.

(** *** The invariant of the logger *)

Lemma spaced_snoc d out l :
  spaced d out → Forall (λ l', fst l' + d <= fst l) out → spaced d (out ++ [l]).
Proof.
  induction out as [|l0 out IH]; intros Hs Hall; simpl.
  - split; [constructor|done].
  - destruct Hs as [H1 H2]. apply Forall_cons in Hall as [Ha Hall].
    split; [|by apply IH].
    apply Forall_app. split; [done|]. by constructor.
Qed.

Lemma filter_window_nil T d t (out : list (Z * string)) :
  T <= t → Forall (λ l', t + d <= fst l') out →
  filter (λ l, T <= fst l < T + d) out = [].
Proof.
  intros Ht. induction 1 as [|l out Hl _ IH]; [done|].
  rewrite filter_cons_False by lia. exact IH.
Qed.

Lemma spaced_window d out T :
  spaced d out → (lines_in_window T d out <= 1)%nat.
Proof.
  unfold lines_in_window. induction out as [|l out IH]; intros Hs; simpl; [lia|].
  destruct Hs as [H1 H2].
  destruct (decide (T <= fst l < T + d)) as [Hin|Hout].
  - rewrite filter_cons_True by done.
    rewrite (filter_window_nil T d (fst l)); [simpl; lia|lia|done].
  - rewrite filter_cons_False by done. by apply IH.
Qed.

Lemma disarm_singleton d d' ts :
  disarm d [d'] = Some ts → d = d' ∧ ts = [].
Proof.
  simpl. destruct (Z.eqb_spec d' d); [|done]. intros [= <-]. done.
Qed.

Lemma step_inv w ev w' : logger_inv w → step w ev = Some w' → logger_inv w'.
Proof.
  intros [Hs Hp] Hstep. destruct ev as [t|d t]; simpl in Hstep.
  - destruct (Z.leb_spec (clock w) t) as [Hc|]; [|done].
    injection Hstep as <-. unfold at_time, log.
    destruct (pause (logger w)) eqn:Ep; simpl.
    + split; [done|]. exact Hp.
    + destruct Hp as [Ht Hall]. split.
      * apply spaced_snoc; [done|]. eapply Forall_impl; [exact Hall|].
        simpl. intros; lia.
      * rewrite Ht. simpl. eexists. split; [reflexivity|].
        apply Forall_app. split.
        -- eapply Forall_impl; [exact Hall|]. simpl. unfold quiet_window, Second.
           intros; lia.
        -- constructor; [|constructor]. simpl. unfold quiet_window. lia.
  - destruct (Z.leb_spec (clock w) t) as [Hc|]; [|done].
    destruct (Z.leb_spec d t) as [Hd|]; [|done]. simpl in Hstep.
    destruct (disarm d (timers w)) as [ts|] eqn:Ed; [|done].
    simpl in Hstep. injection Hstep as <-.
    destruct (pause (logger w)) eqn:Ep.
    2:{ destruct Hp as [Ht _]. rewrite Ht in Ed. done. }
    destruct Hp as (d' & Ht & Hall). rewrite Ht in Ed.
    apply disarm_singleton in Ed as [-> ->].
    unfold at_time, delay_func. simpl.
    destruct (Z.eqb_spec (accum (logger w)) 0) as [Hz|Hnz]; simpl.
    + split; [done|]. split; [done|].
      eapply Forall_impl; [exact Hall|]. simpl. intros; lia.
    + assert (Hlog : ∀ line,
        logger_inv
          {| logger := {| pause := true; accum := 0 |}; clock := t;
             timers := [] ++ [t + 5 * Second];
             output := output w ++ [(t, line)]; uploads := uploads w |}).
      { intros line. split; simpl.
        - apply spaced_snoc; [done|]. eapply Forall_impl; [exact Hall|].
          simpl. intros; lia.
        - eexists. split; [reflexivity|]. apply Forall_app. split.
          + eapply Forall_impl; [exact Hall|]. simpl. unfold quiet_window, Second.
           intros; lia.
          + constructor; [|constructor]. simpl. unfold quiet_window. lia. }
      destruct (Z.eqb_spec (accum (logger w)) 1); simpl; apply Hlog.
Qed.

Lemma initial_inv : logger_inv initial.
Proof. split; simpl; [done|]. split; [done|constructor]. Qed.

Lemma run_inv evs : ∀ w w', logger_inv w → run w evs = Some w' → logger_inv w'.
Proof.
  induction evs as [|ev evs IH]; intros w w' Hinv Hrun; simpl in Hrun.
  - by injection Hrun as <-.
  - destruct (step w ev) as [w1|] eqn:Es; [|done]. simpl in Hrun.
    eapply IH; [|exact Hrun]. eapply step_inv; eauto.
Qed.

(** C2.  Whatever drops and timer runs reach the logger, and in whatever
    order, no window of 5 seconds holds more than one of its log lines;
    and a drop that arrives while the logger is paused adds one to the
    counter of accumulated drops and does nothing else: no line, no
    timer. *)
Theorem one_line_per_quiet_window (evs : list event) (w : world) :
  run initial evs = Some w →
  (∀ T, (lines_in_window T (5 * Second) (output w) <= 1)%nat)
  ∧ (∀ t, pause (logger w) = true → clock w <= t →
       step w (Drop t) =
         Some {| logger := {| pause := true; accum := accum (logger w) + 1 |};
                 clock := t; timers := timers w; output := output w;
                 uploads := uploads w |}).
Proof.
  intros Hrun. split.
  - intros T. apply spaced_window.
    exact (proj1 (run_inv evs initial w initial_inv Hrun)).
  - intros t Hp Ht. simpl. destruct (Z.leb_spec (clock w) t); [|lia].
    unfold at_time, log. by rewrite Hp.
Qed.

Lemma one_line_per_quiet_window_witness :
  let evs := [Drop 0; Drop 1; Drop 2; TimerFires 5000000000 5000000007;
              Drop 5000000008; TimerFires 10000000007 10000000007;
              TimerFires 15000000007 15000000009; Drop 15000000009] in
  ∃ w, run initial evs = Some w
       ∧ length (output w) = 4%nat
       ∧ (∀ T, (lines_in_window T (5 * Second) (output w) <= 1)%nat)
       ∧ (∀ t, pause (logger w) = true → clock w <= t →
            step w (Drop t) =
              Some {| logger := {| pause := true;
                                   accum := accum (logger w) + 1 |};
                      clock := t; timers := timers w; output := output w;
                      uploads := uploads w |}).
Proof.
  intros evs.
  destruct (run initial evs) as [w|] eqn:E; [|vm_compute in E; discriminate].
  exists w. split; [reflexivity|]. split.
  - vm_compute in E. injection E as <-. reflexivity.
  - exact (one_line_per_quiet_window evs w E).
Defined.

(** C5, as the code has it.  A timer that runs with one accumulated drop
    writes the single-drop line, resets the counter and arms the timer
    again, and the run of that timer, if no drop came in between, writes
    nothing, arms nothing and ends the pause.  A timer that runs with more
    than one accumulated drop writes the line
    [OpenCensus Stackdriver exporter: failed to upload N spans: buffer full]
    with [N] the accumulated count in decimal, resets the counter to 0 and
    arms the timer again, the logger staying paused. *)
Theorem timer_steps (o : overflowLogger) :
  (accum o = 1 →
     delay_func o =
       ({| pause := true; accum := 0 |},
        [Println "OpenCensus Stackdriver exporter: failed to upload span: buffer full";
         AfterFunc (5 * Second)])
     ∧ delay_func {| pause := true; accum := 0 |} =
       ({| pause := false; accum := 0 |}, []))
  ∧ (1 < accum o →
     delay_func o =
       ({| pause := true; accum := 0 |},
        [Println ("OpenCensus Stackdriver exporter: failed to upload "
                    +:+ pretty (accum o) +:+ " spans: buffer full");
         AfterFunc (5 * Second)])).
Proof.
  split.
  - intros H1. unfold delay_func. rewrite H1. simpl. done.
  - intros Hgt. unfold delay_func.
    destruct (Z.eqb_spec (accum o) 0); [lia|].
    destruct (Z.eqb_spec (accum o) 1); [lia|]. reflexivity.
Qed.

Lemma timer_steps_witness :
  delay_func {| pause := true; accum := 1 |} =
    ({| pause := true; accum := 0 |},
     [Println "OpenCensus Stackdriver exporter: failed to upload span: buffer full";
      AfterFunc 5000000000])
  ∧ delay_func {| pause := true; accum := 5 |} =
    ({| pause := true; accum := 0 |},
     [Println "OpenCensus Stackdriver exporter: failed to upload 5 spans: buffer full";
      AfterFunc 5000000000]).
Proof.
  split.
  - exact (proj1 (proj1 (timer_steps {| pause := true; accum := 1 |}) eq_refl)).
  - exact (proj2 (timer_steps {| pause := true; accum := 5 |}) ltac:(simpl; lia)).
Defined.

(** C5, as the claim words it, fails: with two accumulated drops the line
    written is not [dropped 2 spans: buffer full]. *)
Lemma timer_summary_line_differs :
  snd (delay_func {| pause := true; accum := 2 |}) =
    [Println "OpenCensus Stackdriver exporter: failed to upload 2 spans: buffer full";
     AfterFunc (5 * Second)]
  ∧ Println "dropped 2 spans: buffer full"
      ∉ snd (delay_func {| pause := true; accum := 2 |}).
Proof.
  split; [reflexivity|].
  vm_compute. intros H.
  apply list_elem_of_In in H. simpl in H.
  destruct H as [H|[H|[]]]; discriminate H.
Qed.

(** *** newExporter *)

Lemma wrap64_small z : is_int z → wrap64 z = z.
Proof.
  unfold is_int, wrap64. intros Hz.
  rewrite Z.mod_small by lia. lia.
Qed.

(** C8, as the code has it.  The bundler of a new exporter takes the
    configured delay threshold when it is positive and 2 seconds
    otherwise, the configured count threshold when it is positive and 50
    otherwise, and its three derived limits are the count threshold times
    200, 1000 and 2000 in the arithmetic of a 64-bit [int]; they are the
    exact products whenever the count threshold is at most
    4611686018427387, the largest value whose 2000-fold fits an [int]. *)
Theorem newExporter_thresholds (o : Options) :
  let b := bundler (newExporter o) in
  let count := bundler.BundleCountThreshold b in
  (0 < BundleDelayThreshold o →
     bundler.DelayThreshold b = BundleDelayThreshold o)
  ∧ (BundleDelayThreshold o <= 0 →
     bundler.DelayThreshold b = 2 * 1000000000)
  ∧ (0 < BundleCountThreshold o → count = BundleCountThreshold o)
  ∧ (BundleCountThreshold o <= 0 → count = 50)
  ∧ bundler.BundleByteThreshold b = wrap64 (count * 200)
  ∧ bundler.BundleByteLimit b = wrap64 (count * 1000)
  ∧ bundler.BufferedByteLimit b = wrap64 (count * 2000)
  ∧ (BundleCountThreshold o <= 4611686018427387 →
     bundler.BundleByteThreshold b = count * 200
     ∧ bundler.BundleByteLimit b = count * 1000
     ∧ bundler.BufferedByteLimit b = count * 2000).
Proof.
  unfold newExporter. cbn -[wrap64 Z.mul].
  destruct (Z.ltb_spec 0 (BundleDelayThreshold o)),
           (Z.ltb_spec 0 (BundleCountThreshold o));
    repeat apply conj; intros;
    rewrite ?wrap64_small by (unfold is_int; lia);
    unfold Second; lia.
Qed.

Lemma newExporter_thresholds_witness :
  let o := {| ProjectID := "my-project"; BundleDelayThreshold := 0;
              BundleCountThreshold := 20 |} in
  let b := bundler (newExporter o) in
  bundler.DelayThreshold b = 2 * 1000000000
  ∧ bundler.BundleCountThreshold b = 20
  ∧ bundler.BundleByteThreshold b = 4000
  ∧ bundler.BundleByteLimit b = 20000
  ∧ bundler.BufferedByteLimit b = 40000.
Proof.
  intros o b.
  destruct (newExporter_thresholds o)
    as (_ & Hd & Hc & _ & _ & _ & _ & Hexact).
  destruct (Hexact ltac:(simpl; lia)) as (H1 & H2 & H3).
  split; [exact (Hd ltac:(simpl; lia))|].
  split; [exact (Hc ltac:(simpl; lia))|].
  unfold b. rewrite H1, H2, H3. rewrite (Hc ltac:(simpl; lia)).
  simpl. repeat split.
Defined.

(** C8, as the claim words it, fails: for the count threshold [2^62], a
    value of type [int], the buffered-size ceiling is not 2000 times the
    count threshold; the product wraps around to 0, and so do the other
    two limits. *)
Lemma newExporter_limits_wrap :
  let o := {| ProjectID := "my-project"; BundleDelayThreshold := 0;
              BundleCountThreshold := 2 ^ 62 |} in
  let b := bundler (newExporter o) in
  is_int (BundleCountThreshold o)
  ∧ bundler.BundleCountThreshold b = 2 ^ 62
  ∧ bundler.BufferedByteLimit b = 0
  ∧ bundler.BufferedByteLimit b ≠ bundler.BundleCountThreshold b * 2000
  ∧ bundler.BundleByteLimit b ≠ bundler.BundleCountThreshold b * 1000
  ∧ bundler.BundleByteThreshold b ≠ bundler.BundleCountThreshold b * 200.
Proof.
  vm_compute. repeat split; discriminate.
Qed.

(** *** Export *)

Lemma Exporter_eta (e : Exporter) :
  {| projectID := projectID e; bundler := bundler e; overflow := overflow e |}
  = e.
Proof. by destruct e. Qed.

(** [log] starts no upload. *)
Lemma log_no_upload (o : overflowLogger) (spans : list SpanData) :
  GoUploadFn spans ∉ snd (log o).
Proof.
  unfold log. destruct (pause o); simpl; intros H;
    apply list_elem_of_In in H; simpl in H;
    repeat (destruct H as [H|H]; [discriminate H|]); exact H.
Qed.

Section Export_outcomes.

Variable Add : bundler.Bundler → SpanData → Z →
               option bundler.bundler_error * bundler.Bundler.

(** The contract of the library's [Add]: the size of the item alone is
    checked against the per-bundle limit first, then the buffered size
    against the ceiling, and a refused item leaves the bundler as it
    was. *)
Hypothesis Add_oversized : ∀ b s n,
  0 < bundler.BundleByteLimit b < n →
  Add b s n = (Some bundler.ErrOversizedItem, b).

Hypothesis Add_overflow : ∀ b s n,
  ¬ (0 < bundler.BundleByteLimit b < n) →
  bundler.BufferedByteLimit b < bundler.bufferedSize b + n →
  Add b s n = (Some bundler.ErrOverflow, b).

(** C3.  A record whose weight alone exceeds the hard per-batch limit is
    handed to [uploadFn] on its own in a goroutine, and the exporter with
    its bundler stays as it was.  A record that is not oversized and whose
    acceptance would exceed the buffered-weight ceiling is neither stored
    nor uploaded: the exporter does what [overflowLogger.log] does and
    nothing else.  After any other error of [Add] one diagnostic line is
    written and nothing else happens.  [Export] has no result, so in no
    case does its caller see an error: the function is total and yields
    only the exporter afterwards and the effects. *)
Theorem Export_outcomes (e : Exporter) (s : SpanData) :
  (0 < bundler.BundleByteLimit (bundler e) < weight s →
     Export Add e s = (e, [GoUploadFn [s]]))
  ∧ (¬ (0 < bundler.BundleByteLimit (bundler e) < weight s) →
     bundler.BufferedByteLimit (bundler e)
       < bundler.bufferedSize (bundler e) + weight s →
     Export Add e s =
       ({| projectID := projectID e; bundler := bundler e;
           overflow := fst (log (overflow e)) |},
        snd (log (overflow e)))
     ∧ ∀ spans, GoUploadFn spans ∉ snd (Export Add e s))
  ∧ (∀ msg b, Add (bundler e) s (weight s) = (Some (bundler.ErrOther msg), b) →
     Export Add e s =
       ({| projectID := projectID e; bundler := b; overflow := overflow e |},
        [Println ("OpenCensus Stackdriver exporter: failed to upload span: "
                    +:+ msg)])).
Proof.
  assert (Hn : 1 + Z.of_nat (size (Attributes s)) + len (Annotations s)
               + len (MessageEvents s) + len (StackTrace s) = weight s)
    by reflexivity.
  unfold Export. rewrite Hn. repeat apply conj.
  - intros Hbig. rewrite (Add_oversized _ _ _ Hbig).
    by rewrite Exporter_eta.
  - intros Hsmall Hfull. rewrite (Add_overflow _ _ _ Hsmall Hfull).
    cbn [projectID bundler overflow].
    pose proof (log_no_upload (overflow e)) as Hno.
    by destruct (log (overflow e)).
  - intros msg b HAdd. by rewrite HAdd.
Qed.

End Export_outcomes.

Lemma specAdd_oversized b s n :
  0 < bundler.BundleByteLimit b < n →
  bundler.specAdd b s n = (Some bundler.ErrOversizedItem, b).
Proof.
  intros [H1 H2]. unfold bundler.specAdd.
  destruct (Z.ltb_spec 0 (bundler.BundleByteLimit b)); [|lia].
  destruct (Z.ltb_spec (bundler.BundleByteLimit b) n); [|lia]. reflexivity.
Qed.

Lemma specAdd_overflow b s n :
  ¬ (0 < bundler.BundleByteLimit b < n) →
  bundler.BufferedByteLimit b < bundler.bufferedSize b + n →
  bundler.specAdd b s n = (Some bundler.ErrOverflow, b).
Proof.
  intros Hsmall Hfull. unfold bundler.specAdd.
  destruct (Z.ltb_spec 0 (bundler.BundleByteLimit b)),
           (Z.ltb_spec (bundler.BundleByteLimit b) n);
    cbn [andb]; try lia;
    by destruct (Z.ltb_spec (bundler.BufferedByteLimit b)
                            (bundler.bufferedSize b + n)); [|lia].
Qed.

Lemma failingAdd_oversized msg b s n :
  0 < bundler.BundleByteLimit b < n →
  bundler.failingAdd msg b s n = (Some bundler.ErrOversizedItem, b).
Proof.
  intros H. unfold bundler.failingAdd. by rewrite specAdd_oversized.
Qed.

Lemma failingAdd_overflow msg b s n :
  ¬ (0 < bundler.BundleByteLimit b < n) →
  bundler.BufferedByteLimit b < bundler.bufferedSize b + n →
  bundler.failingAdd msg b s n = (Some bundler.ErrOverflow, b).
Proof.
  intros H1 H2. unfold bundler.failingAdd. by rewrite specAdd_overflow.
Qed.

Lemma Export_outcomes_witness :
  let e := newExporter {| ProjectID := "my-project"; BundleDelayThreshold := 0;
                          BundleCountThreshold := 1 |} in
  let small := {| Name := "a"; Attributes := ∅; Annotations := [];
                  MessageEvents := []; StackTrace := [] |} in
  let big := {| Name := "b"; Attributes := ∅; Annotations := [];
                MessageEvents := []; StackTrace := replicate 1000 0 |} in
  let full := {| projectID := projectID e;
                 bundler :=
                   {| bundler.DelayThreshold := 2000000000;
                      bundler.BundleCountThreshold := 1;
                      bundler.BundleByteThreshold := 200;
                      bundler.BundleByteLimit := 1000;
                      bundler.BufferedByteLimit := 2000;
                      bundler.items := [(big, 1000); (big, 1000)] |};
                 overflow := overflow e |} in
  Export bundler.specAdd e big = (e, [GoUploadFn [big]])
  ∧ Export bundler.specAdd full small =
      ({| projectID := projectID full; bundler := bundler full;
          overflow := {| pause := true; accum := 0 |} |},
       [Println "OpenCensus Stackdriver exporter: failed to upload span: buffer full";
        AfterFunc 5000000000])
  ∧ Export (bundler.failingAdd "deadline exceeded") e small =
      (e, [Println "OpenCensus Stackdriver exporter: failed to upload span: deadline exceeded"]).
Proof.
  intros e small big full.
  split; [|split].
  - refine (proj1 (Export_outcomes bundler.specAdd
                     specAdd_oversized specAdd_overflow e big) _).
    vm_compute. split; reflexivity.
  - refine (proj1 (proj1 (proj2 (Export_outcomes bundler.specAdd
                     specAdd_oversized specAdd_overflow full small)) _ _)).
    + vm_compute. intros [_ H]. discriminate H.
    + vm_compute. reflexivity.
  - refine (proj2 (proj2 (Export_outcomes (bundler.failingAdd "deadline exceeded")
                     (failingAdd_oversized _) (failingAdd_overflow _) e small))
                  "deadline exceeded" (bundler e) _).
    reflexivity.
Defined.

(** C9.  [Export] calls the bundler's [Add] with the record and with the
    weight [1 + len(Attributes) + len(Annotations) + len(MessageEvents)
    + len(StackTrace)], and with nothing else: the bundler it leaves is
    the one this call returns, and two bundlers that answer this one call
    alike make [Export] behave alike. *)
Theorem Export_hands_weight
    (Add Add' : bundler.Bundler → SpanData → Z →
                option bundler.bundler_error * bundler.Bundler)
    (e : Exporter) (s : SpanData) :
  let n := 1 + Z.of_nat (size (Attributes s)) + len (Annotations s)
           + len (MessageEvents s) + len (StackTrace s) in
  bundler (fst (Export Add e s)) = snd (Add (bundler e) s n)
  ∧ (Add' (bundler e) s n = Add (bundler e) s n →
     Export Add' e s = Export Add e s).
Proof.
  intros n. unfold Export. fold n. split.
  - destruct (Add (bundler e) s n) as [[[| |msg]|] b];
      cbn [projectID bundler overflow fst snd]; try reflexivity.
    by destruct (log (overflow e)).
  - intros ->. reflexivity.
Qed.

Lemma Export_hands_weight_witness :
  let s := {| Name := "rpc"; Attributes := {["k" := "v"]};
              Annotations := ["a"; "b"]; MessageEvents := [1];
              StackTrace := [10; 20; 30] |} in
  let e := newExporter {| ProjectID := "my-project"; BundleDelayThreshold := 0;
                          BundleCountThreshold := 0 |} in
  bundler.items (bundler (fst (Export bundler.specAdd e s))) = [(s, 8)]
  ∧ Export (bundler.failingAdd "unused") e
           {| Name := "big"; Attributes := ∅; Annotations := [];
              MessageEvents := []; StackTrace := replicate (Z.to_nat 50000) 0 |}
    = Export bundler.specAdd e
           {| Name := "big"; Attributes := ∅; Annotations := [];
              MessageEvents := []; StackTrace := replicate (Z.to_nat 50000) 0 |}.
Proof.
  intros s e. split.
  - rewrite (proj1 (Export_hands_weight bundler.specAdd bundler.specAdd e s)).
    vm_compute. reflexivity.
  - apply (Export_hands_weight bundler.specAdd (bundler.failingAdd "unused")).
    vm_compute. reflexivity.
Defined.

End stackdriver_facts.

(** * Further properties *)

(** ** The codec: failures, framing, storage, interleaving *)

Module tagencoding_more.
Import Go tagencoding tagencoding_facts.

Lemma length_copy (dst src : list byte) : length (copy dst src) = length dst.
Proof. unfold copy. rewrite length_app, length_take, length_drop. lia. Qed.

Lemma uint16_of_bytes_range b0 b1 : 0 <= uint16_of_bytes b0 b1 <= 65535.
Proof.
  unfold uint16_of_bytes.
  pose proof (Z_of_byte_range b0). pose proof (Z_of_byte_range b1).
  rewrite Z.shiftl_mul_pow2 by lia. change (2 ^ 8) with 256.
  assert (Hdisj : Z.land (Z_of_byte b0) (Z_of_byte b1 * 256) = 0).
  { apply Z.bits_inj'. intros i Hi. rewrite Z.land_spec, Z.bits_0.
    destruct (Z_lt_ge_dec i 8).
    - rewrite <- (Z.shiftl_mul_pow2 _ 8) by lia.
      rewrite Z.shiftl_spec_low by lia. apply andb_false_r.
    - rewrite (Z.bits_above_log2 (Z_of_byte b0)); [done|lia|].
      destruct (Z.eq_dec (Z_of_byte b0) 0) as [->|]; [simpl; lia|].
      apply Z.log2_lt_pow2; [lia|]. 
      apply Z.lt_le_trans with (2 ^ 8); [change (2^8) with 256; lia|].
      apply Z.pow_le_mono_r; lia. }
  rewrite <- Z.lxor_lor by exact Hdisj.
  rewrite <- Z.add_nocarry_lxor by exact Hdisj. lia.
Qed.

Lemma index_Some_range (s : list byte) (i : Z) (b : byte) :
  index s i = Some b → 0 <= i < len s.
Proof. unfold index. zcases; intros; try done; lia. Qed.

Lemma index_is_Some (s : list byte) (i : Z) :
  is_Some (index s i) ↔ 0 <= i < len s.
Proof.
  split.
  - intros [b Hb]. by apply index_Some_range in Hb.
  - intros Hi. unfold index, len in *. zcases.
    apply lookup_lt_is_Some. lia.
Qed.

(** [ReadValue], once the two prefix bytes are known. *)
Lemma ReadValue_eq vb b0 b1 :
  index (Buffer vb) (ReadIndex vb) = Some b0 →
  index (Buffer vb) (ReadIndex vb + 1) = Some b1 →
  let L := uint16_of_bytes b0 b1 in
  ReadValue vb =
    if ReadIndex vb + 2 + L <=? len (Buffer vb) then
      Some (read_back (take (Z.to_nat L)
                        (drop (Z.to_nat (ReadIndex vb + 2)) (Buffer vb))),
            {| Buffer := Buffer vb; WriteIndex := WriteIndex vb;
               ReadIndex := ReadIndex vb + 2 + L |})
    else None.
Proof.
  intros H0 H1 L. unfold ReadValue. rewrite H0, H1. cbn [mbind option_bind].
  fold L. pose proof (uint16_of_bytes_range b0 b1) as HL. fold L in HL.
  apply index_Some_range in H0, H1. unfold sizeOfUint16.
  destruct (Z.eqb_spec L 0) as [Hz|Hnz].
  - rewrite Hz. destruct (Z.leb_spec (ReadIndex vb + 2 + 0) (len (Buffer vb))); [|lia].
    unfold read_back. simpl. rewrite ?take_0. do 3 f_equal. lia.
  - unfold make. destruct (Z.ltb_spec L 0); [lia|]. cbn [mbind option_bind].
    cbn [Buffer ReadIndex WriteIndex]. unfold slice.
    destruct (Z.leb_spec (ReadIndex vb + 2 + L) (len (Buffer vb))) as [Hfit|Hover].
    + destruct (Z.leb_spec 0 (ReadIndex vb + 2)); [|lia].
      destruct (Z.leb_spec (ReadIndex vb + 2) (ReadIndex vb + 2 + L)); [|lia].
      cbn [andb mbind option_bind].
      replace (ReadIndex vb + 2 + L - (ReadIndex vb + 2)) with L by lia.
      assert (Hlen : length (take (Z.to_nat L)
                       (drop (Z.to_nat (ReadIndex vb + 2)) (Buffer vb)))
                     = Z.to_nat L).
      { rewrite length_take, length_drop. unfold len in *. lia. }
      rewrite copy_exact by (rewrite length_replicate; lia).
      unfold read_back, len. rewrite Hlen.
      destruct (Z.eqb_spec (Z.of_nat (Z.to_nat L)) 0); [lia|]. reflexivity.
    + destruct (Z.leb_spec 0 (ReadIndex vb + 2)),
               (Z.leb_spec (ReadIndex vb + 2) (ReadIndex vb + 2 + L));
        reflexivity.
Qed.




(** X1.  What travels is [Bytes()]; a reader that starts from a [Values] whose
    buffer is just that slice gets every value back and ends exactly at
    the end of the slice. *)
Theorem decode_transmitted_bytes (vs : list (list byte)) :
  Forall (λ v, len v <= 65535) vs →
  ∃ vb bs vb',
    WriteValues empty vs = Some vb
    ∧ Bytes vb = Some bs
    ∧ ReadValues (length vs)
        {| Buffer := bs; WriteIndex := 0; ReadIndex := 0 |}
      = Some ((λ v, if len v =? 0 then go_nil else go_slice v) <$> vs, vb')
    ∧ ReadIndex vb' = len bs.
Proof.
  intros Hall. destruct (WriteValues_empty vs) as (post & Hw).
  eexists _, (encode_all vs), _. split; [exact Hw|]. split.
  { apply (Bytes_prefix _ _ post); reflexivity. }
  split.
  - apply (ReadValues_spec vs _ [] []); [|reflexivity|exact Hall].
    cbn [Buffer]. by rewrite app_nil_r.
  - reflexivity.
Qed.

Lemma decode_transmitted_bytes_witness :
  let vs := [[x68; x69]; []; [x21]] in
  ∃ vb bs vb',
    WriteValues empty vs = Some vb
    ∧ Bytes vb = Some bs
    ∧ ReadValues (length vs)
        {| Buffer := bs; WriteIndex := 0; ReadIndex := 0 |}
      = Some ((λ v, if len v =? 0 then go_nil else go_slice v) <$> vs, vb')
    ∧ ReadIndex vb' = len bs.
Proof.
  apply decode_transmitted_bytes.
  repeat constructor; unfold len; simpl; lia.
Defined.

(** One write on a well-formed buffer: where the cursor ends and how long
    the storage is afterwards. *)
Lemma WriteValue_shape vb v :
  wf vb →
  ∃ vb',
    WriteValue vb v = Some vb'
    ∧ wf vb'
    ∧ WriteIndex vb' = WriteIndex vb + 2 + len v
    ∧ ReadIndex vb' = ReadIndex vb
    ∧ len (Buffer vb') =
        (if len (Buffer vb) - WriteIndex vb <? 2 + len v
         then 2 * (len (Buffer vb) + 1) + (2 + len v)
         else len (Buffer vb))
    ∧ take (Z.to_nat (WriteIndex vb)) (Buffer vb')
      = take (Z.to_nat (WriteIndex vb)) (Buffer vb).
Proof.
  intros Hwf. pose proof (len_nonneg v) as Hv.
  destruct (growIfRequired_spec vb (sizeOfUint16 + len v) Hwf)
    as (pad & Hg & Hroom & Hlen); [unfold sizeOfUint16; lia|].
  destruct (WriteValue_spec vb v Hwf) as (pad' & post & Hg' & Hw & Hl).
  rewrite Hg in Hg'.
  assert (pad' = pad) as ->
    by (injection Hg' as Hg'; by apply app_inv_head in Hg').
  eexists. split; [exact Hw|]. unfold wf. cbn [Buffer WriteIndex ReadIndex].
  unfold sizeOfUint16 in *.
  assert (Hlen' : len (take (Z.to_nat (WriteIndex vb)) (Buffer vb)
                       ++ encode v ++ post) = len (Buffer vb ++ pad))
    by (unfold len; lia).
  destruct Hwf as [H0 Hwi]. rewrite Hlen'.
  split; [lia|]. split; [lia|]. split; [reflexivity|]. split; [exact Hlen|].
  rewrite take_app_le; [by rewrite take_take, Nat.min_id|].
  rewrite length_take. unfold len in Hwi. lia.
Qed.

Lemma WriteValues_space vs : ∀ vb,
  wf vb → len (Buffer vb) <= 3 * WriteIndex vb →
  ∃ vb', WriteValues vb vs = Some vb' ∧ wf vb'
         ∧ len (Buffer vb') <= 3 * WriteIndex vb'.
Proof.
  induction vs as [|v vs IH]; intros vb Hwf Hsp; [by exists vb|].
  destruct (WriteValue_shape vb v Hwf) as (vb1 & Hw & Hwf1 & Hwi & _ & Hlen & _).
  cbn [WriteValues]. rewrite Hw. cbn [mbind option_bind].
  apply IH; [exact Hwf1|]. rewrite Hlen, Hwi.
  pose proof (len_nonneg v). destruct Hwf.
  destruct (Z.ltb_spec (len (Buffer vb) - WriteIndex vb) (2 + len v)); lia.
Qed.

(** X5.  However the writes fall, the storage built from an empty buffer is
    never longer than three times the bytes written into it. *)
Theorem storage_within_three_times_written (vs : list (list byte)) :
  ∃ vb,
    WriteValues empty vs = Some vb
    ∧ WriteIndex vb <= len (Buffer vb) <= 3 * WriteIndex vb.
Proof.
  destruct (WriteValues_space vs empty) as (vb & Hw & Hwf & Hsp).
  - unfold wf, empty, len. simpl. lia.
  - unfold empty, len. simpl. lia.
  - exists vb. split; [exact Hw|]. destruct Hwf. lia.
Qed.

Lemma encode_inj v w rest rest' :
  len v <= 65535 → len w <= 65535 →
  encode v ++ rest = encode w ++ rest' → v = w ∧ rest = rest'.
Proof.
  intros Hv Hw Heq. unfold encode in Heq. cbn [app] in Heq.
  injection Heq as H0 H1 Hrest.
  assert (Hlen : len v = len w).
  { pose proof (uint16_of_int_low_bytes (len v)) as Ev.
    pose proof (uint16_of_int_low_bytes (len w)) as Ew.
    cbn [int_low_bytes fst snd] in Ev, Ew. rewrite H0, H1, Ew in Ev.
    pose proof (len_nonneg v). pose proof (len_nonneg w).
    rewrite !Z.mod_small in Ev by lia. lia. }
  apply app_inj_1 in Hrest; [done|]. unfold len in Hlen. lia.
Qed.

Lemma encode_all_inj vs : ∀ ws,
  Forall (λ v, len v <= 65535) vs → Forall (λ v, len v <= 65535) ws →
  encode_all vs = encode_all ws → vs = ws.
Proof.
  induction vs as [|v vs IH]; intros [|w ws] Hvs Hws Heq; try done.
  - apply Forall_cons in Hvs as [Hv Hvs]. apply Forall_cons in Hws as [Hw Hws].
    unfold encode_all in Heq. cbn [fmap list_fmap concat] in Heq.
    apply encode_inj in Heq as [-> Heq]; [|done..].
    f_equal. by apply IH.
Qed.

(** X6.  The encoding is unambiguous: two sequences of values, each value of
    at most 65535 bytes, that leave the same [Bytes()] are the same
    sequence. *)
Theorem same_bytes_same_values (vs ws : list (list byte)) (vb1 vb2 : Values) :
  Forall (λ v, len v <= 65535) vs →
  Forall (λ v, len v <= 65535) ws →
  WriteValues empty vs = Some vb1 →
  WriteValues empty ws = Some vb2 →
  Bytes vb1 = Bytes vb2 →
  vs = ws.
Proof.
  intros Hvs Hws H1 H2 Hb.
  destruct (WriteValues_empty vs) as (p1 & E1).
  destruct (WriteValues_empty ws) as (p2 & E2).
  rewrite E1 in H1. rewrite E2 in H2. injection H1 as <-. injection H2 as <-.
  rewrite (Bytes_prefix _ (encode_all vs) p1) in Hb by reflexivity.
  rewrite (Bytes_prefix _ (encode_all ws) p2) in Hb by reflexivity.
  injection Hb as Hb. by apply encode_all_inj.
Qed.

Lemma same_bytes_same_values_witness :
  let vs := [[x01]; []] in
  let vb := {| Buffer := [x01; x00; x01; x00; x00];
               WriteIndex := 5; ReadIndex := 0 |} in
  Forall (λ v, len v <= 65535) vs
  ∧ WriteValues empty vs = Some vb
  ∧ vs = vs.
Proof.
  assert (H : Forall (λ v, len v <= 65535) [[x01]; []])
    by (repeat constructor; unfold len; simpl; lia).
  intros vs vb. split; [exact H|]. split; [reflexivity|].
  exact (same_bytes_same_values vs vs vb vb H H eq_refl eq_refl eq_refl).
Defined.

Lemma len_insert (l : list byte) (i : nat) (b : byte) :
  len (<[i:=b]> l) = len l.
Proof. unfold len. by rewrite length_insert. Qed.

Lemma len_copy (dst src : list byte) : len (copy dst src) = len dst.
Proof. unfold len. by rewrite length_copy. Qed.

Lemma growIfRequired_len vb expected :
  0 <= expected →
  ∃ g, growIfRequired vb expected =
         Some {| Buffer := g; WriteIndex := WriteIndex vb;
                 ReadIndex := ReadIndex vb |}
       ∧ len g = (if len (Buffer vb) - WriteIndex vb <? expected
                  then 2 * (len (Buffer vb) + 1) + expected
                  else len (Buffer vb)).
Proof.
  intros He. unfold growIfRequired. pose proof (len_nonneg (Buffer vb)).
  destruct (Z.ltb_spec (len (Buffer vb) - WriteIndex vb) expected).
  - unfold make. destruct (Z.ltb_spec (2 * (len (Buffer vb) + 1) + expected) 0);
      [lia|]. cbn [mbind option_bind]. eexists. split; [reflexivity|].
    rewrite len_copy. unfold len. rewrite length_replicate. lia.
  - exists (Buffer vb). split; [by destruct vb|reflexivity].
Qed.

(** X4.  [WriteValue] on any buffer, well-formed or not: it panics exactly
    when the write cursor is negative or lies more than
    [2 * len(Buffer) + 2 + len(v)] into the buffer. *)
Theorem WriteValue_succeeds_iff (vb : Values) (v : list byte) :
  is_Some (WriteValue vb v) ↔
  0 <= WriteIndex vb <= 2 * len (Buffer vb) + 2 + len v.
Proof.
  pose proof (len_nonneg v) as Hv. pose proof (len_nonneg (Buffer vb)) as HB.
  destruct (growIfRequired_len vb (sizeOfUint16 + len v)) as (g & Hg & Hlen);
    [unfold sizeOfUint16; lia|].
  unfold WriteValue. rewrite Hg. cbn [mbind option_bind].
  unfold store, copy_from. cbn [Buffer WriteIndex ReadIndex fst snd].
  unfold sizeOfUint16 in *.
  assert (Hno : ∀ P : Prop, ¬ P → is_Some (@None Values) ↔ P).
  { intros P HP. split; [intros [? ?]; done|done]. }
  assert (Hyes : ∀ (P : Prop) (x : Values), P → is_Some (Some x) ↔ P).
  { intros P x HP. split; eauto. }
  destruct (Z.ltb_spec (len (Buffer vb) - WriteIndex vb) (2 + len v)) as [Hgrow|Hroom];
    (destruct (Z.leb_spec 0 (WriteIndex vb));
     [|cbn [andb mbind option_bind]; apply Hno; lia]);
    (destruct (Z.ltb_spec (WriteIndex vb) (len g));
     [|cbn [andb mbind option_bind]; apply Hno; lia]);
    cbn [andb mbind option_bind Buffer WriteIndex]; rewrite ?len_insert;
    (destruct (Z.leb_spec 0 (WriteIndex vb + 1)); [|lia]);
    (destruct (Z.ltb_spec (WriteIndex vb + 1) (len g));
     [|cbn [andb mbind option_bind]; apply Hno; lia]);
    cbn [andb mbind option_bind Buffer WriteIndex]; rewrite ?len_insert;
    (destruct (Z.eqb_spec (len v) 0); [apply Hyes; lia|]);
    (destruct (Z.leb_spec 0 (WriteIndex vb + 1 + 1)); [|lia]);
    (destruct (Z.leb_spec (WriteIndex vb + 1 + 1) (len g)); [|lia]);
    cbn [andb mbind option_bind]; apply Hyes; lia.
Qed.

(** [WriteValue] does not look at the read cursor. *)
Lemma WriteValue_ReadIndex B wi ri ri' v vb' :
  WriteValue {| Buffer := B; WriteIndex := wi; ReadIndex := ri |} v = Some vb' →
  WriteValue {| Buffer := B; WriteIndex := wi; ReadIndex := ri' |} v =
    Some {| Buffer := Buffer vb'; WriteIndex := WriteIndex vb';
            ReadIndex := ri' |}.
Proof.
  unfold WriteValue, growIfRequired. cbn [Buffer WriteIndex ReadIndex].
  destruct (len B - wi <? sizeOfUint16 + len v);
    [destruct (make _) as [tmp|]; [|done]|];
    cbn [mbind option_bind Buffer WriteIndex ReadIndex];
    (destruct (store _ wi _) as [b1|]; [|done]);
    cbn [mbind option_bind Buffer WriteIndex ReadIndex];
    (destruct (store b1 _ _) as [b2|]; [|done]);
    cbn [mbind option_bind Buffer WriteIndex ReadIndex];
    (destruct (len v =? 0); [by intros [= <-]|]);
    (destruct (copy_from _ _ _) as [b3|]; [|done]);
    cbn [mbind option_bind]; by intros [= <-].
Qed.

Lemma index_take_app (B rest : list byte) (m : nat) (i : Z) :
  i < Z.of_nat m → (m <= length B)%nat →
  index (take m B ++ rest) i = index B i.
Proof.
  intros Hi Hm. unfold index, len. rewrite length_app, length_take.
  destruct (Z.leb_spec 0 i); [|done].
  repeat match goal with
         | |- context [?a <? ?b] => destruct (Z.ltb_spec a b); try lia
         end.
  cbn [andb]. rewrite lookup_app_l by (rewrite length_take; lia).
  apply lookup_take_lt. lia.
Qed.

Lemma take_drop_take_app (B rest : list byte) (n k m : nat) :
  (n + k <= m)%nat → (m <= length B)%nat →
  take k (drop n (take m B ++ rest)) = take k (drop n B).
Proof.
  intros Hnk Hm.
  rewrite drop_app_le by (rewrite length_take; lia).
  rewrite take_app_le by (rewrite length_drop, length_take; lia).
  rewrite <- (take_drop m B) at 2.
  rewrite drop_app_le by (rewrite length_take; lia).
  by rewrite take_app_le by (rewrite length_drop, length_take; lia).
Qed.

(** X7.  Reads and writes can be interleaved.  On a well-formed buffer, a
    read of a value that lies below the write cursor and a write commute:
    the read returns the same value before and after the write, also when
    the write reallocates the storage, and both orders end in the same
    buffer. *)
Theorem read_write_commute (vb vb1 : Values) (r : bytes_result) (v : list byte) :
  wf vb →
  ReadValue vb = Some (r, vb1) →
  ReadIndex vb1 <= WriteIndex vb →
  ∃ vb2 vb3,
    WriteValue vb v = Some vb2
    ∧ ReadValue vb2 = Some (r, vb3)
    ∧ WriteValue vb1 v = Some vb3.
Proof.
  intros Hwf Hr Hbelow.
  destruct (WriteValue_spec vb v Hwf) as (pad & post & _ & Hw & _).
  destruct (index (Buffer vb) (ReadIndex vb)) as [b0|] eqn:H0;
    [|unfold ReadValue in Hr; by rewrite H0 in Hr].
  destruct (index (Buffer vb) (ReadIndex vb + 1)) as [b1|] eqn:H1;
    [|unfold ReadValue in Hr; by rewrite H0, H1 in Hr].
  rewrite (ReadValue_eq vb b0 b1 H0 H1) in Hr.
  pose proof (uint16_of_bytes_range b0 b1) as HL.
  remember (uint16_of_bytes b0 b1) as L eqn:EL.
  destruct (Z.leb_spec (ReadIndex vb + 2 + L) (len (Buffer vb))) as [Hfit|];
    [|done].
  injection Hr as <- <-. cbn [ReadIndex] in Hbelow.
  pose proof (index_Some_range _ _ _ H0) as R0.
  destruct Hwf as [Hw0 Hwl]. pose proof (len_nonneg v) as Hv.
  assert (Hm : (Z.to_nat (WriteIndex vb) <= length (Buffer vb))%nat)
    by (unfold len in Hwl; lia).
  assert (Hlt : ReadIndex vb + 1 < Z.of_nat (Z.to_nat (WriteIndex vb))) by lia.
  eexists _, _. split; [exact Hw|].
  assert (H0' : index (take (Z.to_nat (WriteIndex vb)) (Buffer vb)
                       ++ encode v ++ post) (ReadIndex vb) = Some b0)
    by (rewrite index_take_app; [done|lia|done]).
  assert (H1' : index (take (Z.to_nat (WriteIndex vb)) (Buffer vb)
                       ++ encode v ++ post) (ReadIndex vb + 1) = Some b1)
    by (rewrite index_take_app; [done|lia|done]).
  split.
  - erewrite ReadValue_eq; cbn [Buffer ReadIndex WriteIndex]; [|exact H0'|exact H1'].
    rewrite <- EL.
    assert (Hlen2 : WriteIndex vb
                    <= len (take (Z.to_nat (WriteIndex vb)) (Buffer vb)
                            ++ encode v ++ post)).
    { rewrite len_app. unfold len at 1. rewrite length_take.
      pose proof (len_nonneg (encode v ++ post)). lia. }
    destruct (Z.leb_spec (ReadIndex vb + 2 + L)
                (len (take (Z.to_nat (WriteIndex vb)) (Buffer vb)
                      ++ encode v ++ post))); [|lia].
    rewrite take_drop_take_app by (try done; lia). reflexivity.
  - destruct vb as [B wi ri]. cbn [Buffer WriteIndex ReadIndex] in *.
    apply (WriteValue_ReadIndex B wi ri _ v _ Hw).
Qed.

Lemma read_write_commute_witness :
  let vb := {| Buffer := [x02; x00; x61; x62; x00; x00];
               WriteIndex := 6; ReadIndex := 0 |} in
  let vb1 := {| Buffer := [x02; x00; x61; x62; x00; x00];
                WriteIndex := 6; ReadIndex := 4 |} in
  wf vb
  ∧ ReadValue vb = Some (go_slice [x61; x62], vb1)
  ∧ ∃ vb2 vb3,
      WriteValue vb [x63] = Some vb2
      ∧ ReadValue vb2 = Some (go_slice [x61; x62], vb3)
      ∧ WriteValue vb1 [x63] = Some vb3.
Proof.
  assert (H : wf {| Buffer := [x02; x00; x61; x62; x00; x00];
                    WriteIndex := 6; ReadIndex := 0 |})
    by (unfold wf, len; simpl; lia).
  intros vb vb1. split; [exact H|]. split; [reflexivity|].
  refine (read_write_commute vb vb1 (go_slice [x61; x62]) [x63] H eq_refl _).
  simpl. lia.
Defined.

(** *** Reading more than was written *)

Lemma ReadValues_snoc n : ∀ vb,
  ReadValues (S n) vb =
    '(rs, vb') ← ReadValues n vb;
    '(r, vb'') ← ReadValue vb';
    Some (rs ++ [r], vb'').
Proof.
  induction n as [|n IH]; intros vb.
  - cbn [ReadValues mbind option_bind].
    destruct (ReadValue vb) as [[r vb']|]; reflexivity.
  - change (ReadValues (S (S n)) vb)
      with ('(r, vb') ← ReadValue vb;
            '(rs, vb'') ← ReadValues (S n) vb';
            Some (r :: rs, vb'')).
    destruct (ReadValue vb) as [[r vb1]|] eqn:E1;
      cbn [ReadValues mbind option_bind]; rewrite E1;
      cbn [mbind option_bind]; [|reflexivity].
    fold (ReadValues n vb1).
    pose proof (IH vb1) as H. cbn [ReadValues] in H. rewrite H.
    destruct (ReadValues n vb1) as [[rs vb2]|]; cbn [mbind option_bind];
      [|reflexivity].
    destruct (ReadValue vb2) as [[r' vb3]|]; reflexivity.
Qed.

(** X19.  A reader that asks the transmitted bytes for one value more than
    were written does not get garbage: the extra [ReadValue] panics. *)
Theorem reading_one_too_many_panics (vs : list (list byte)) :
  Forall (λ v, len v <= 65535) vs →
  ∃ vb bs,
    WriteValues empty vs = Some vb
    ∧ Bytes vb = Some bs
    ∧ ReadValues (S (length vs))
        {| Buffer := bs; WriteIndex := 0; ReadIndex := 0 |} = None.
Proof.
  intros Hall. destruct (WriteValues_empty vs) as (post & Hw).
  eexists _, (encode_all vs). split; [exact Hw|]. split.
  { apply (Bytes_prefix _ _ post); reflexivity. }
  rewrite ReadValues_snoc.
  rewrite (ReadValues_spec vs _ [] []); [|by cbn [Buffer]; rewrite app_nil_r
                                         |reflexivity|exact Hall].
  cbn [mbind option_bind Buffer WriteIndex].
  change (len (@nil byte)) with 0. rewrite Z.add_0_l.
  unfold ReadValue, index. cbn [Buffer ReadIndex].
  destruct (Z.leb_spec 0 (len (encode_all vs)));
    destruct (Z.ltb_spec (len (encode_all vs)) (len (encode_all vs)));
    try lia; reflexivity.
Qed.

Lemma reading_one_too_many_panics_witness :
  let vs := [[x68; x69]; []] in
  ∃ vb bs,
    WriteValues empty vs = Some vb
    ∧ Bytes vb = Some bs
    ∧ ReadValues 3 {| Buffer := bs; WriteIndex := 0; ReadIndex := 0 |} = None.
Proof.
  apply (reading_one_too_many_panics [[x68; x69]; []]).
  repeat constructor; unfold len; simpl; lia.
Defined.

(** *** What lies above the write cursor *)






End tagencoding_more.

(** ** The overflow logger and the exporter: state, accounting, uploads *)

Module stackdriver_more.
Import Go trace stackdriver stackdriver_facts.

(** *** The state of the logger *)

Lemma step_state w ev w' :
  step w ev = Some w' →
  logger_inv w →
  (0 <= accum (logger w)
   ∧ (pause (logger w) = false → accum (logger w) = 0)
   ∧ Forall (λ d, d <= clock w + quiet_window) (timers w)) →
  0 <= accum (logger w')
  ∧ (pause (logger w') = false → accum (logger w') = 0)
  ∧ Forall (λ d, d <= clock w' + quiet_window) (timers w').
Proof.
  intros Hstep [_ Hp] (Hacc & Hidle & Hdue).
  destruct ev as [t|d t]; simpl in Hstep.
  - destruct (Z.leb_spec (clock w) t) as [Hc|]; [|done].
    injection Hstep as <-. unfold at_time, log.
    destruct (pause (logger w)) eqn:Ep; simpl.
    + split; [lia|]. split; [done|].
      eapply Forall_impl; [exact Hdue|]. simpl. intros; lia.
    + destruct Hp as [Ht _]. rewrite Ht. simpl.
      split; [lia|]. split; [done|].
      constructor; [unfold quiet_window; lia|constructor].
  - destruct (Z.leb_spec (clock w) t) as [Hc|]; [|done].
    destruct (Z.leb_spec d t) as [Hd|]; [|done]. simpl in Hstep.
    destruct (disarm d (timers w)) as [ts|] eqn:Ed; [|done].
    simpl in Hstep. injection Hstep as <-.
    destruct (pause (logger w)) eqn:Ep.
    2:{ destruct Hp as [Ht _]. rewrite Ht in Ed. done. }
    destruct Hp as (d' & Ht & _). rewrite Ht in Ed.
    apply disarm_singleton in Ed as [-> ->].
    unfold at_time, delay_func. simpl.
    destruct (Z.eqb_spec (accum (logger w)) 0) as [Hz|Hnz]; simpl.
    + split; [lia|]. split; [done|constructor].
    + destruct (Z.eqb_spec (accum (logger w)) 1); simpl;
        (split; [lia|]; split; [done|];
         constructor; [unfold quiet_window; lia|constructor]).
Qed.

Lemma run_state evs : ∀ w w',
  run w evs = Some w' →
  logger_inv w →
  (0 <= accum (logger w)
   ∧ (pause (logger w) = false → accum (logger w) = 0)
   ∧ Forall (λ d, d <= clock w + quiet_window) (timers w)) →
  logger_inv w'
  ∧ 0 <= accum (logger w')
  ∧ (pause (logger w') = false → accum (logger w') = 0)
  ∧ Forall (λ d, d <= clock w' + quiet_window) (timers w').
Proof.
  induction evs as [|ev evs IH]; intros w w' Hrun Hinv Hst; simpl in Hrun.
  - injection Hrun as <-. done.
  - destruct (step w ev) as [w1|] eqn:Es; [|done]. simpl in Hrun.
    apply (IH w1 w' Hrun).
    + eapply step_inv; eauto.
    + eapply step_state; eauto.
Qed.

(** X8.  In every state the logger can reach, the counter of accumulated
    drops is not negative; while the logger is not paused no timer is
    armed and the counter is 0; while it is paused exactly one timer is
    armed, and it is due at most 5 seconds from now. *)
Theorem logger_state (evs : list event) (w : world) :
  run initial evs = Some w →
  0 <= accum (logger w)
  ∧ (pause (logger w) = false → timers w = [] ∧ accum (logger w) = 0)
  ∧ (pause (logger w) = true →
     ∃ d, timers w = [d] ∧ d <= clock w + 5 * Second).
Proof.
  intros Hrun.
  destruct (run_state evs initial w Hrun initial_inv)
    as ([_ Hp] & Hacc & Hidle & Hdue).
  { simpl. split; [lia|]. split; [done|constructor]. }
  split; [exact Hacc|]. split.
  - intros Ep. rewrite Ep in Hp. split; [apply Hp|by apply Hidle].
  - intros Ep. rewrite Ep in Hp. destruct Hp as (d & Ht & _).
    exists d. split; [exact Ht|]. rewrite Ht in Hdue.
    by apply Forall_cons in Hdue as [Hd _].
Qed.

Lemma logger_state_witness :
  let evs := [Drop 0; Drop 1; TimerFires 5000000000 5000000003; Drop 5000000004] in
  ∃ w, run initial evs = Some w
       ∧ 0 <= accum (logger w)
       ∧ (pause (logger w) = false → timers w = [] ∧ accum (logger w) = 0)
       ∧ (pause (logger w) = true →
          ∃ d, timers w = [d] ∧ d <= clock w + 5 * Second).
Proof.
  intros evs.
  destruct (run initial evs) as [w|] eqn:E; [|vm_compute in E; discriminate].
  exists w. split; [reflexivity|]. exact (logger_state evs w E).
Defined.

(** *** Every drop is reported once *)

Lemma step_accounting w ev w' :
  step w ev = Some w' →
  0 <= accum (logger w) →
  ∃ counts,
    snd <$> output w' = (snd <$> output w) ++ (line_of <$> counts)
    ∧ Forall (λ n, 1 <= n) counts
    ∧ total counts + accum (logger w') = accum (logger w) + drops [ev].
Proof.
  intros Hstep Hacc.
  assert (Hline : ∀ n, n ≠ 1 → msg_buffer_full_count n = line_of n).
  { intros n Hn. unfold line_of. by destruct (Z.eqb_spec n 1). }
  destruct ev as [t|d t]; simpl in Hstep.
  - destruct (Z.leb_spec (clock w) t) as [Hc|]; [|done].
    injection Hstep as <-. unfold at_time, log.
    destruct (pause (logger w)) eqn:Ep; simpl.
    + exists []. split; [by rewrite app_nil_r|]. split; [constructor|].
      unfold drops, total. simpl. lia.
    + exists [1]. split; [by rewrite fmap_app|].
      split; [constructor; [lia|constructor]|].
      unfold drops, total. simpl. lia.
  - destruct (Z.leb_spec (clock w) t) as [Hc|]; [|done].
    destruct (Z.leb_spec d t) as [Hd|]; [|done]. simpl in Hstep.
    destruct (disarm d (timers w)) as [ts|] eqn:Ed; [|done].
    simpl in Hstep. injection Hstep as <-.
    unfold at_time, delay_func. simpl.
    destruct (Z.eqb_spec (accum (logger w)) 0) as [Hz|Hnz]; simpl.
    + exists []. split; [by rewrite app_nil_r|]. split; [constructor|].
      unfold drops, total. simpl. lia.
    + destruct (Z.eqb_spec (accum (logger w)) 1) as [H1|Hn1]; simpl.
      * exists [1]. split; [by rewrite fmap_app|].
        split; [constructor; [lia|constructor]|].
        unfold drops, total. simpl. lia.
      * exists [accum (logger w)].
        split; [by rewrite fmap_app; simpl; rewrite Hline|].
        split; [constructor; [lia|constructor]|].
        unfold drops, total. simpl. lia.
Qed.

Lemma total_app xs ys : total (xs ++ ys) = total xs + total ys.
Proof. unfold total. induction xs as [|x xs IH]; simpl; lia. Qed.

Lemma drops_cons ev evs : drops (ev :: evs) = drops [ev] + drops evs.
Proof.
  unfold drops, total. rewrite fmap_cons.
  destruct ev; cbn [foldr fmap list_fmap]; lia.
Qed.

Lemma run_accounting evs : ∀ w w',
  run w evs = Some w' →
  logger_inv w →
  (0 <= accum (logger w)
   ∧ (pause (logger w) = false → accum (logger w) = 0)
   ∧ Forall (λ d, d <= clock w + quiet_window) (timers w)) →
  ∃ counts,
    snd <$> output w' = (snd <$> output w) ++ (line_of <$> counts)
    ∧ Forall (λ n, 1 <= n) counts
    ∧ total counts + accum (logger w') = accum (logger w) + drops evs.
Proof.
  induction evs as [|ev evs IH]; intros w w' Hrun Hinv Hst; simpl in Hrun.
  - injection Hrun as <-. exists []. split; [by rewrite app_nil_r|].
    split; [constructor|]. unfold drops, total. simpl. lia.
  - destruct (step w ev) as [w1|] eqn:Es; [|done]. simpl in Hrun.
    destruct (step_accounting w ev w1 Es (proj1 Hst)) as (c1 & Ho1 & Hc1 & Ht1).
    destruct (IH w1 w' Hrun) as (c2 & Ho2 & Hc2 & Ht2).
    + eapply step_inv; eauto.
    + eapply step_state; eauto.
    + exists (c1 ++ c2). rewrite Ho2, Ho1, fmap_app, <- app_assoc.
      split; [done|]. split; [by apply Forall_app|].
      rewrite total_app, drops_cons. lia.
Qed.

(** X9.  No drop goes unreported and none is reported twice.  The lines
    written so far are, in order, reports of positive numbers of drops: 1
    as the plain [buffer full] line, [n > 1] as the line with the count;
    these numbers and the counter of accumulated drops add up to the
    number of drops so far. *)
Theorem every_drop_reported_once (evs : list event) (w : world) :
  run initial evs = Some w →
  ∃ counts,
    snd <$> output w =
      (λ n, if n =? 1
            then "OpenCensus Stackdriver exporter: failed to upload span: buffer full"
            else "OpenCensus Stackdriver exporter: failed to upload "
                   +:+ pretty n +:+ " spans: buffer full") <$> counts
    ∧ Forall (λ n, 1 <= n) counts
    ∧ total counts + accum (logger w) = drops evs.
Proof.
  intros Hrun.
  destruct (run_accounting evs initial w Hrun initial_inv)
    as (counts & Ho & Hc & Ht).
  { simpl. split; [lia|]. split; [done|constructor]. }
  exists counts. split; [exact Ho|]. split; [exact Hc|]. simpl in Ht. lia.
Qed.

Lemma every_drop_reported_once_witness :
  let evs := [Drop 0; Drop 1; Drop 2; Drop 3; TimerFires 5000000000 5000000000;
              Drop 5000000001] in
  ∃ w counts,
    run initial evs = Some w
    ∧ snd <$> output w =
        (λ n, if n =? 1
              then "OpenCensus Stackdriver exporter: failed to upload span: buffer full"
              else "OpenCensus Stackdriver exporter: failed to upload "
                     +:+ pretty n +:+ " spans: buffer full") <$> counts
    ∧ Forall (λ n, 1 <= n) counts
    ∧ total counts + accum (logger w) = drops evs.
Proof.
  intros evs.
  destruct (run initial evs) as [w|] eqn:E; [|vm_compute in E; discriminate].
  destruct (every_drop_reported_once evs w E) as (counts & H).
  exists w, counts. split; [reflexivity|exact H].
Defined.

(** *** Back to idle *)

(** X10.  A paused logger that sees no further drop is idle again after at
    most two runs of its timer: the first run either ends the pause or
    writes one line and arms one more timer, and the run of that timer
    writes nothing and ends the pause. *)
Theorem idle_after_two_quiet_timers (evs : list event) (w : world) :
  run initial evs = Some w →
  pause (logger w) = true →
  ∃ d,
    timers w = [d]
    ∧ ∀ t1, clock w <= t1 → d <= t1 →
      ∃ w1,
        step w (TimerFires d t1) = Some w1
        ∧ ((pause (logger w1) = false ∧ timers w1 = []
            ∧ output w1 = output w)
           ∨ (timers w1 = [t1 + 5 * Second]
              ∧ ∀ t2, t1 + 5 * Second <= t2 →
                ∃ w2,
                  step w1 (TimerFires (t1 + 5 * Second) t2) = Some w2
                  ∧ pause (logger w2) = false
                  ∧ timers w2 = []
                  ∧ output w2 = output w1)).
Proof.
  intros Hrun Ep.
  destruct (run_state evs initial w Hrun initial_inv) as ([_ Hp] & _).
  { simpl. split; [lia|]. split; [done|constructor]. }
  rewrite Ep in Hp. destruct Hp as (d & Ht & _).
  exists d. split; [exact Ht|]. intros t1 Hc Hd.
  simpl. destruct (Z.leb_spec (clock w) t1); [|lia].
  destruct (Z.leb_spec d t1); [|lia]. rewrite Ht. simpl.
  rewrite Z.eqb_refl. simpl. eexists. split; [reflexivity|].
  unfold at_time, delay_func. simpl.
  destruct (Z.eqb_spec (accum (logger w)) 0) as [Hz|Hnz]; simpl.
  - left. done.
  - right.
    assert (Hsecond : ∀ line t2, t1 + 5 * Second <= t2 →
      ∃ w2,
        step {| logger := {| pause := true; accum := 0 |}; clock := t1;
                timers := [t1 + 5 * Second];
                output := output w ++ [(t1, line)]; uploads := uploads w |}
             (TimerFires (t1 + 5 * Second) t2) = Some w2
        ∧ pause (logger w2) = false ∧ timers w2 = []
        ∧ output w2 = output w ++ [(t1, line)]).
    { intros line t2 Ht2. simpl.
      assert (t1 <= t2) by (unfold Second in *; lia).
      destruct (Z.leb_spec t1 t2); [|lia].
      destruct (Z.leb_spec (t1 + 5 * Second) t2); [|lia].
      simpl. rewrite Z.eqb_refl. simpl. eexists. split; [reflexivity|].
      done. }
    destruct (Z.eqb_spec (accum (logger w)) 1); simpl;
      (split; [reflexivity|]); apply Hsecond.
Qed.

Lemma idle_after_two_quiet_timers_witness :
  let evs := [Drop 0; Drop 1] in
  ∃ w d,
    run initial evs = Some w
    ∧ pause (logger w) = true
    ∧ timers w = [d]
    ∧ ∀ t1, clock w <= t1 → d <= t1 →
      ∃ w1,
        step w (TimerFires d t1) = Some w1
        ∧ ((pause (logger w1) = false ∧ timers w1 = []
            ∧ output w1 = output w)
           ∨ (timers w1 = [t1 + 5 * Second]
              ∧ ∀ t2, t1 + 5 * Second <= t2 →
                ∃ w2,
                  step w1 (TimerFires (t1 + 5 * Second) t2) = Some w2
                  ∧ pause (logger w2) = false
                  ∧ timers w2 = []
                  ∧ output w2 = output w1)).
Proof.
  intros evs.
  destruct (run initial evs) as [w|] eqn:E; [|vm_compute in E; discriminate].
  assert (Hp : pause (logger w) = true).
  { vm_compute in E. injection E as <-. reflexivity. }
  destruct (idle_after_two_quiet_timers evs w E Hp) as (d & Ht & H).
  exists w, d. split; [reflexivity|]. split; [exact Hp|]. split; [exact Ht|exact H].
Defined.

(** *** newExporter *)

(** X11.  Whatever the options, a new exporter has a positive delay threshold
    and a positive count threshold, an empty bundler and an idle overflow
    logger; and when the configured count threshold is at most
    4611686018427387 the limits are ordered: the soft limit is at least
    200, the hard limit is 5 times the soft limit, and the ceiling is
    twice the hard limit. *)
Theorem newExporter_sane (o : Options) :
  let e := newExporter o in
  let b := bundler e in
  projectID e = ProjectID o
  ∧ 0 < bundler.DelayThreshold b
  ∧ 0 < bundler.BundleCountThreshold b
  ∧ bundler.items b = []
  ∧ overflow e = {| pause := false; accum := 0 |}
  ∧ (BundleCountThreshold o <= 4611686018427387 →
     200 <= bundler.BundleByteThreshold b
     ∧ bundler.BundleByteLimit b = 5 * bundler.BundleByteThreshold b
     ∧ bundler.BufferedByteLimit b = 2 * bundler.BundleByteLimit b).
Proof.
  unfold newExporter. cbn -[wrap64 Z.mul].
  destruct (Z.ltb_spec 0 (BundleDelayThreshold o)),
           (Z.ltb_spec 0 (BundleCountThreshold o));
    repeat apply conj; intros; try reflexivity;
    rewrite ?wrap64_small by (unfold is_int; lia);
    unfold Second; lia.
Qed.

Lemma newExporter_sane_witness :
  let o := {| ProjectID := "my-project"; BundleDelayThreshold := -1;
              BundleCountThreshold := 7 |} in
  let b := bundler (newExporter o) in
  bundler.BundleByteThreshold b = 1400
  ∧ 200 <= bundler.BundleByteThreshold b
  ∧ bundler.BundleByteLimit b = 5 * bundler.BundleByteThreshold b
  ∧ bundler.BufferedByteLimit b = 2 * bundler.BundleByteLimit b.
Proof.
  intros o b. split; [reflexivity|].
  destruct (newExporter_sane o) as (_ & _ & _ & _ & _ & H).
  apply H. simpl. lia.
Defined.

(** *** Export with any bundler *)

(** X12.  Whatever the bundler's [Add] returns, [Export] keeps the project id,
    leaves the bundler as [Add] left it, and does at most two things; it
    starts an upload only for an oversized record, and then of this record
    alone; it touches the overflow logger and arms a timer only on
    overflow; and when [Add] accepts the record it does nothing at all. *)
Theorem Export_restraint
    (Add : bundler.Bundler → SpanData → Z →
           option bundler.bundler_error * bundler.Bundler)
    (e : Exporter) (s : SpanData) :
  let r := Add (bundler e) s (weight s) in
  let e' := fst (Export Add e s) in
  let eff := snd (Export Add e s) in
  projectID e' = projectID e
  ∧ bundler e' = snd r
  ∧ (length eff <= 2)%nat
  ∧ (∀ spans, GoUploadFn spans ∈ eff →
       spans = [s] ∧ fst r = Some bundler.ErrOversizedItem)
  ∧ (overflow e' ≠ overflow e → fst r = Some bundler.ErrOverflow)
  ∧ (∀ d, AfterFunc d ∈ eff →
       d = 5 * Second ∧ fst r = Some bundler.ErrOverflow
       ∧ pause (overflow e) = false)
  ∧ (fst r = None → eff = [] ∧ overflow e' = overflow e).
Proof.
  assert (Hn : 1 + Z.of_nat (size (Attributes s)) + len (Annotations s)
               + len (MessageEvents s) + len (StackTrace s) = weight s)
    by reflexivity.
  unfold Export. rewrite Hn.
  destruct (Add (bundler e) s (weight s)) as [[[| |msg]|] b];
    cbn [fst snd projectID bundler overflow].
  - repeat apply conj; try done; simpl; try lia.
    + intros spans H. apply list_elem_of_In in H. simpl in H.
      destruct H as [[= <-]|[]]. done.
    + intros d H. apply list_elem_of_In in H. simpl in H.
      destruct H as [H|[]]. discriminate H.
  - unfold log. destruct (pause (overflow e)) eqn:Ep;
      cbn [fst snd projectID bundler overflow negb delay];
      repeat apply conj; try done; simpl; try lia.
    + intros spans H. apply list_elem_of_In in H. simpl in H. done.
    + intros d H. apply list_elem_of_In in H. simpl in H. done.
    + intros spans H. apply list_elem_of_In in H. simpl in H.
      destruct H as [H|[H|[]]]; discriminate H.
    + intros d H. apply list_elem_of_In in H. simpl in H.
      destruct H as [H|[[= <-]|[]]]; [discriminate H|done].
  - repeat apply conj; try done; simpl; try lia.
    + intros spans H. apply list_elem_of_In in H. simpl in H.
      destruct H as [H|[]]. discriminate H.
    + intros d H. apply list_elem_of_In in H. simpl in H.
      destruct H as [H|[]]. discriminate H.
  - repeat apply conj; try done; simpl; try lia.
    + intros spans H. by apply elem_of_nil in H.
    + intros d H. by apply elem_of_nil in H.
Qed.

(** *** uploadToStackdriver *)

Lemma upload_loop {Span : Type} (f : SpanData → Span) (name : string)
    (spans : list SpanData) : ∀ acc,
  foldl (λ req span,
           {| req_Name := req_Name req;
              req_Spans := req_Spans req ++ [f span] |})
        {| req_Name := name; req_Spans := acc |} spans
  = {| req_Name := name; req_Spans := acc ++ (f <$> spans) |}.
Proof.
  induction spans as [|s spans IH]; intros acc; simpl.
  - by rewrite app_nil_r.
  - rewrite IH. by rewrite <- app_assoc.
Qed.

(** X14.  One upload is one call of the client: its request is named
    [projects/] followed by the project id and carries the translation of
    every given span, each made with the exporter's project id, in the
    given order.  A call that succeeds writes nothing; a call that fails
    writes one line with the number of spans and the error, and the upload
    is not tried again: no goroutine is started and no timer is armed. *)
Theorem upload_request_and_failure
    (Span : Type) (protoFromSpanData : SpanData → string → Span)
    (BatchWriteSpans : BatchWriteSpansRequest Span → option string)
    (e : Exporter) (spans : list SpanData) :
  let req := fst (uploadToStackdriver Span protoFromSpanData BatchWriteSpans
                    e spans) in
  let eff := snd (uploadToStackdriver Span protoFromSpanData BatchWriteSpans
                    e spans) in
  req_Name req = "projects/" +:+ projectID e
  ∧ req_Spans req = (λ s, protoFromSpanData s (projectID e)) <$> spans
  ∧ length (req_Spans req) = length spans
  ∧ (BatchWriteSpans req = None → eff = [])
  ∧ (∀ msg, BatchWriteSpans req = Some msg →
       eff = [Println ("OpenCensus Stackdriver exporter: failed to upload "
                         +:+ pretty (Z.of_nat (length spans)) +:+ " spans: "
                         +:+ msg)]).
Proof.
  unfold uploadToStackdriver. cbn [fst snd].
  rewrite (upload_loop (λ s, protoFromSpanData s (projectID e))).
  cbn [req_Name req_Spans app].
  split; [reflexivity|]. split; [reflexivity|].
  split; [by rewrite length_fmap|].
  split; [by intros ->|]. by intros msg ->.
Qed.

(** *** The exporter in time *)

Lemma logger_inv_later w t u :
  logger_inv w → clock w <= t →
  logger_inv {| logger := logger w; clock := t; timers := timers w;
                output := output w; uploads := u |}.
Proof.
  intros [Hs Hp] Ht. split; [exact Hs|]. cbn [logger timers output clock].
  destruct (pause (logger w)); [exact Hp|].
  destruct Hp as [Hno Hall]. split; [exact Hno|].
  eapply Forall_impl; [exact Hall|]. simpl. intros; lia.
Qed.

Section exporter_in_time.

Variable Add : bundler.Bundler → SpanData → Z →
               option bundler.bundler_error * bundler.Bundler.

(** The library's [Add] returns nil or one of its two sentinel errors. *)
Hypothesis Add_errors : ∀ b s n msg b',
  Add b s n ≠ (Some (bundler.ErrOther msg), b').

Lemma pstep_inv p ev p' :
  pstep Add p ev = Some p' → logger_inv (env p) → logger_inv (env p').
Proof.
  intros Hstep Hinv. destruct ev as [s t|d t]; cbn [pstep] in Hstep.
  - destruct (Z.leb_spec (clock (env p)) t) as [Hc|]; [|done].
    unfold Export in Hstep.
    destruct (Add (bundler (exporter_of p)) s _) as [[[| |msg]|] b] eqn:EA.
    + injection Hstep as <-. cbn [env foldl perform projectID bundler overflow
                                  exporter_of logger clock timers output uploads].
      by apply logger_inv_later.
    + cbn [projectID bundler overflow exporter_of] in Hstep.
      assert (Hdrop : step (env p) (Drop t) = Some (at_time t (env p) log)).
      { simpl. by destruct (Z.leb_spec (clock (env p)) t); [|lia]. }
      pose proof (step_inv _ _ _ Hinv Hdrop) as Hinv'.
      unfold at_time in Hinv'.
      destruct (log (logger (env p))) as [o eff].
      injection Hstep as <-. exact Hinv'.
    + by apply Add_errors in EA.
    + injection Hstep as <-. cbn [env foldl perform projectID bundler overflow
                                  exporter_of logger clock timers output uploads].
      by apply logger_inv_later.
  - destruct (step (env p) (TimerFires d t)) as [w|] eqn:Es; [|done].
    cbn [mbind option_bind] in Hstep. injection Hstep as <-. cbn [env].
    eapply step_inv; eauto.
Qed.

Lemma prun_inv evs : ∀ p p',
  prun Add p evs = Some p' → logger_inv (env p) → logger_inv (env p').
Proof.
  induction evs as [|ev evs IH]; intros p p' Hrun Hinv; cbn [prun] in Hrun.
  - by injection Hrun as <-.
  - destruct (pstep Add p ev) as [p1|] eqn:Es; [|done].
    cbn [mbind option_bind] in Hrun.
    eapply IH; [exact Hrun|]. eapply pstep_inv; eauto.
Qed.

(** X13.  An exporter made by [newExporter], used through [Export] with the
    timers of its overflow logger running in any interleaving: as long as
    the bundler only reports its two sentinel errors, the lines that
    [Export] and the timers write are at most one in any window of 5
    seconds, however many records overflow. *)
Theorem exporter_one_line_per_window
    (o : Options) (evs : list pevent) (p : process) :
  prun Add (start (newExporter o)) evs = Some p →
  ∀ T, (lines_in_window T (5 * Second) (output (env p)) <= 1)%nat.
Proof.
  intros Hrun T. apply spaced_window.
  refine (proj1 (prun_inv evs _ p Hrun _)).
  split; simpl; [done|]. split; [done|constructor].
Qed.

End exporter_in_time.

Lemma specAdd_errors b s n msg b' :
  bundler.specAdd b s n ≠ (Some (bundler.ErrOther msg), b').
Proof.
  unfold bundler.specAdd.
  destruct (_ && _); [done|]. by destruct (_ <? _).
Qed.

Lemma exporter_one_line_per_window_witness :
  let o := {| ProjectID := "my-project"; BundleDelayThreshold := 0;
              BundleCountThreshold := 1 |} in
  let s := {| Name := "s"; Attributes := ∅; Annotations := [];
              MessageEvents := []; StackTrace := replicate 998 0 |} in
  let evs := [Exported s 0; Exported s 1; Exported s 2; Exported s 3;
              Timer 5000000002 5000000002; Exported s 5000000003] in
  ∃ p, prun bundler.specAdd (start (newExporter o)) evs = Some p
       ∧ length (output (env p)) = 2%nat
       ∧ ∀ T, (lines_in_window T (5 * Second) (output (env p)) <= 1)%nat.
Proof.
  intros o s evs.
  destruct (prun bundler.specAdd (start (newExporter o)) evs) as [p|] eqn:E;
    [|vm_compute in E; discriminate].
  exists p. split; [reflexivity|]. split.
  - vm_compute in E. injection E as <-. reflexivity.
  - exact (exporter_one_line_per_window bundler.specAdd specAdd_errors o evs p E).
Defined.

End stackdriver_more.

(** ** The gRPC stats handlers *)

Module grpctrace_facts.
Import grpctrace.

(** *** Span names *)

Lemma append_nil (b : string) : "" +:+ b = b.
Proof. reflexivity. Qed.

Lemma append_cons (c : ascii) (a b : string) :
  String c a +:+ b = String c (a +:+ b).
Proof. reflexivity. Qed.

Lemma replace_slashes_length s :
  String.length (replace_slashes s) = String.length s.
Proof. induction s as [|c s IH]; simpl; [done|by rewrite IH]. Qed.

Lemma replace_slashes_app a b :
  replace_slashes (a +:+ b) = replace_slashes a +:+ replace_slashes b.
Proof. induction a as [|c a IH]; simpl; [done|by rewrite IH]. Qed.

Lemma replace_slashes_free s :
  occurs "/" (replace_slashes s) = false.
Proof.
  induction s as [|c s IH]; simpl; [done|]. rewrite IH, orb_false_r.
  destruct (Ascii.eqb_spec c "/") as [->|Hne]; [done|].
  by apply Ascii.eqb_neq.
Qed.

Lemma replace_slashes_id s :
  occurs "/" s = false → replace_slashes s = s.
Proof.
  induction s as [|c s IH]; simpl; [done|]. intros H.
  apply orb_false_iff in H as [Hc Hs]. rewrite Hc. by rewrite IH.
Qed.

Lemma occurs_app_sep c a b : occurs c (a +:+ String c b) = true.
Proof.
  induction a as [|x a IH]; simpl.
  - by rewrite Ascii.eqb_refl.
  - rewrite IH. apply orb_true_r.
Qed.

Lemma last_separator c a1 : ∀ a2 b1 b2,
  a1 +:+ String c b1 = a2 +:+ String c b2 →
  occurs c b1 = false → occurs c b2 = false →
  a1 = a2 ∧ b1 = b2.
Proof.
  induction a1 as [|x a1 IH]; intros [|y a2] b1 b2 Heq H1 H2; simpl in Heq.
  - by injection Heq as ->.
  - injection Heq as _ ->. by rewrite occurs_app_sep in H1.
  - injection Heq as _ <-. by rewrite occurs_app_sep in H2.
  - injection Heq as -> Heq. destruct (IH _ _ _ Heq H1 H2) as [-> ->]. done.
Qed.

(** X15.  The span name is [Sent] on the client and [Recv] on the server,
    followed by the full method name with every [/] turned into [.]: it
    is 4 bytes longer than the method name and holds no [/]; a method
    name without [/] is kept as it is. *)
Theorem span_name_shape (m : string) :
  client_span_name m = "Sent" +:+ replace_slashes m
  ∧ server_span_name m = "Recv" +:+ replace_slashes m
  ∧ String.length (client_span_name m) = (4 + String.length m)%nat
  ∧ String.length (server_span_name m) = (4 + String.length m)%nat
  ∧ occurs "/" (client_span_name m) = false
  ∧ occurs "/" (server_span_name m) = false
  ∧ (∀ i, String.get i (replace_slashes m) =
          (λ c, if Ascii.eqb c "/" then "."%char else c) <$> String.get i m)
  ∧ (occurs "/" m = false → replace_slashes m = m).
Proof.
  unfold client_span_name, server_span_name.
  rewrite !append_cons, !append_nil. simpl.
  rewrite replace_slashes_length, replace_slashes_free.
  repeat apply conj; try reflexivity.
  - induction m as [|c m IH]; intros [|i]; simpl; try done; apply IH.
  - apply replace_slashes_id.
Qed.

(** X16.  Two gRPC methods [/service/method], whose service names hold no [/]
    and whose method names hold neither [/] nor [.], get the same span
    name only when they are the same method. *)
Theorem span_name_tells_methods_apart (s1 k1 s2 k2 : string) :
  occurs "/" s1 = false → occurs "/" s2 = false →
  occurs "/" k1 = false → occurs "/" k2 = false →
  occurs "." k1 = false → occurs "." k2 = false →
  client_span_name ("/" +:+ s1 +:+ "/" +:+ k1)
    = client_span_name ("/" +:+ s2 +:+ "/" +:+ k2)
  ∨ server_span_name ("/" +:+ s1 +:+ "/" +:+ k1)
    = server_span_name ("/" +:+ s2 +:+ "/" +:+ k2) →
  s1 = s2 ∧ k1 = k2.
Proof.
  intros Hs1 Hs2 Hk1 Hk2 Hd1 Hd2 Heq.
  assert (Hshape : ∀ s k, occurs "/" s = false → occurs "/" k = false →
            replace_slashes ("/" +:+ s +:+ "/" +:+ k) = "." +:+ s +:+ "." +:+ k).
  { intros s k Hs Hk. rewrite !append_cons, !append_nil. simpl.
    rewrite replace_slashes_app. simpl.
    rewrite (replace_slashes_id s Hs), (replace_slashes_id k Hk). reflexivity. }
  unfold client_span_name, server_span_name in Heq.
  rewrite !Hshape in Heq by done.
  rewrite !append_cons, !append_nil in Heq.
  assert (Hcore : s1 +:+ String "." k1 = s2 +:+ String "." k2).
  { destruct Heq as [Heq|Heq]; by injection Heq. }
  by apply last_separator in Hcore.
Qed.

Lemma span_name_tells_methods_apart_witness :
  client_span_name "/helloworld.Greeter/SayHello" = "Sent.helloworld.Greeter.SayHello"
  ∧ ("helloworld.Greeter" = "helloworld.Greeter" ∧ "SayHello" = "SayHello").
Proof.
  split; [reflexivity|].
  apply (span_name_tells_methods_apart
           "helloworld.Greeter" "SayHello" "helloworld.Greeter" "SayHello");
    try reflexivity.
  left. reflexivity.
Defined.

(** *** handleRPC *)

Lemma handleRPCs_app sts1 sts2 :
  handleRPCs (sts1 ++ sts2) = handleRPCs sts1 ++ handleRPCs sts2.
Proof. unfold handleRPCs. by rewrite fmap_app, concat_app. Qed.

Lemma int32_range z : - 2 ^ 31 <= int32 z < 2 ^ 31.
Proof.
  unfold int32. pose proof (Z.mod_pos_bound (z + 2 ^ 31) (2 ^ 32)). lia.
Qed.

Lemma handleRPC_not_End rs :
  is_End rs = false →
  Forall (λ c, is_EndSpan c = false ∧ ∀ code m, c ≠ SetSpanStatus code m)
         (handleRPC rs).
Proof.
  destruct rs; simpl; intros H; try done; repeat constructor; done.
Qed.

Lemma handleRPCs_not_End sts :
  Forall (λ rs, is_End rs = false) sts →
  Forall (λ c, is_EndSpan c = false ∧ ∀ code m, c ≠ SetSpanStatus code m)
         (handleRPCs sts).
Proof.
  induction 1 as [|rs sts Hrs _ IH]; [constructor|].
  unfold handleRPCs. cbn [fmap list_fmap concat].
  apply Forall_app. split; [by apply handleRPC_not_End|exact IH].
Qed.

(** X17.  The span of an RPC is ended exactly when its [End] arrives.  For
    the stats of one RPC, whose last event is the only [End]: the calls
    before it neither end the span nor set its status; then the status is
    set if and only if the RPC failed, to the error's code, brought into
    the range of an [int32], and its description; and the last call ends
    the span. *)
Theorem span_ended_at_End (sts : list RPCStats) (err : option rpc_error) :
  Forall (λ rs, is_End rs = false) sts →
  ∃ before,
    handleRPCs sts = before
    ∧ Forall (λ c, is_EndSpan c = false
                   ∧ ∀ code m, c ≠ SetSpanStatus code m) before
    ∧ handleRPCs (sts ++ [End err]) =
        before
        ++ match err with
           | Some e => [SetSpanStatus (int32 (Code e)) (Desc e)]
           | None => []
           end
        ++ [EndSpan]
    ∧ (∀ e, err = Some e → - 2 ^ 31 <= int32 (Code e) < 2 ^ 31
                           ∧ (0 <= Code e < 2 ^ 31 → int32 (Code e) = Code e)).
Proof.
  intros Hsts. exists (handleRPCs sts). split; [reflexivity|].
  split; [by apply handleRPCs_not_End|]. split.
  - rewrite handleRPCs_app. f_equal. unfold handleRPCs.
    cbn [fmap list_fmap concat handleRPC]. by rewrite app_nil_r.
  - intros e _. split; [apply int32_range|].
    intros Hc. unfold int32. rewrite Z.mod_small by lia. lia.
Qed.

Lemma span_ended_at_End_witness :
  let sts := [Begin true false; OutHeader; OutPayload 5 10; InHeader 20;
              InPayload 7 12; InTrailer 3] in
  let err := Some {| Code := 14; Desc := "unavailable" |} in
  handleRPCs (sts ++ [End err]) =
    [SetSpanAttributes [("Client", true); ("FailFast", false)];
     AddMessageSendEvent 0 0 0; AddMessageSendEvent 0 5 10;
     AddMessageReceiveEvent 0 20 20; AddMessageReceiveEvent 0 7 12;
     AddMessageReceiveEvent 0 3 3;
     SetSpanStatus 14 "unavailable"; EndSpan].
Proof.
  intros sts err.
  destruct (span_ended_at_End sts err) as (before & Hb & _ & Hcalls & _).
  - repeat constructor.
  - rewrite Hcalls, <- Hb. reflexivity.
Defined.

(** X18.  Over any sequence of stats, the span is ended as many times as
    there are [End] events; every message event carries the id 0; and one
    call of [handleRPC] makes at most two calls into package trace. *)
Theorem handleRPC_calls (sts : list RPCStats) :
  length (filter (λ c, is_EndSpan c = true) (handleRPCs sts))
    = length (filter (λ rs, is_End rs = true) sts)
  ∧ (∀ id u c, AddMessageReceiveEvent id u c ∈ handleRPCs sts
               ∨ AddMessageSendEvent id u c ∈ handleRPCs sts → id = 0)
  ∧ Forall (λ rs, (length (handleRPC rs) <= 2)%nat) sts.
Proof.
  split; [|split].
  - induction sts as [|rs sts IH]; [done|].
    unfold handleRPCs in *. cbn [fmap list_fmap concat].
    rewrite filter_app, length_app, IH.
    destruct rs as [| | | | | | |[e|]|]; reflexivity.
  - intros id u c H.
    assert (Hall : Forall (λ call,
              (∀ u c, call = AddMessageReceiveEvent id u c → id = 0)
              ∧ (∀ u c, call = AddMessageSendEvent id u c → id = 0))
              (handleRPCs sts)).
    { clear H. induction sts as [|rs sts IH]; [constructor|].
      unfold handleRPCs in *. cbn [fmap list_fmap concat].
      apply Forall_app. split; [|exact IH].
      destruct rs as [| | | | | | |[e|]|]; simpl; repeat constructor;
        intros ? ? [=]; done. }
    rewrite Forall_forall in Hall.
    destruct H as [H|H]; apply Hall in H as [H1 H2]; eauto.
  - apply Forall_forall. intros rs _.
    destruct rs as [| | | | | | |[e|]|]; simpl; lia.
Qed.

End grpctrace_facts.
